(** * The accounts tab of the banking panel ([src/tab.ts])

    A shallow embedding of [BankingTab.initAccountsTab]: the search box,
    the sort selector, the [checkNames] pipeline (reconcile banker
    checkboxes, filter, sort, cap at 300, render), the deletion handler
    and the debounced input listener.

    Conventions of the embedding.
    - JavaScript strings are modelled by [string]; the string primitives
      below follow ECMAScript on 7-bit text (code units below 128) in a
      locale without casing rules of its own, every other code unit is
      passed through unchanged.
    - JavaScript numbers holding integers (balances, epoch timestamps,
      array lengths) are modelled by [Z] and [nat]; this is exact below
      2^53.
    - The DOM and the stores form one record, [World]; the code is written
      in a small state monad over it, and every call to a collaborator
      (stores, notification channel) is appended to a call log. *)

From Stdlib Require Import String Ascii List ZArith Lia Bool Arith.
From Stdlib Require Import Permutation Sorted DecimalString.
Import ListNotations.
Open Scope string_scope.
Open Scope Z_scope.

(** ** ECMAScript primitives used by the tab *)

Module JS.

(** Code units of the letters [a] .. [z]. *)
Definition isLower (c : ascii) : bool :=
  let n := nat_of_ascii c in (97 <=? n)%nat && (n <=? 122)%nat.

(** Code units of the digits, the class [\d]. *)
Definition isDigit (c : ascii) : bool :=
  let n := nat_of_ascii c in (48 <=? n)%nat && (n <=? 57)%nat.

(** WhiteSpace and LineTerminator code units: TAB, LF, VT, FF, CR, SP. *)
Definition isSpace (c : ascii) : bool :=
  let n := nat_of_ascii c in
  ((9 <=? n)%nat && (n <=? 13)%nat) || (n =? 32)%nat.

Definition upperChar (c : ascii) : ascii :=
  if isLower c then ascii_of_nat (nat_of_ascii c - 32) else c.

(** [String.prototype.toLocaleUpperCase] *)
Fixpoint toLocaleUpperCase (s : string) : string :=
  match s with
  | EmptyString => EmptyString
  | String c s' => String (upperChar c) (toLocaleUpperCase s')
  end.

Fixpoint trimStart (s : string) : string :=
  match s with
  | EmptyString => EmptyString
  | String c s' => if isSpace c then trimStart s' else s
  end.

Fixpoint trimEnd (s : string) : string :=
  match s with
  | EmptyString => EmptyString
  | String c s' =>
      match trimEnd s' with
      | EmptyString => if isSpace c then EmptyString else String c EmptyString
      | t => String c t
      end
  end.

(** [String.prototype.trim] *)
Definition trim (s : string) : string := trimEnd (trimStart s).

(** [sub] is an initial segment of [s]. *)
Fixpoint startsWith (s sub : string) {struct sub} : bool :=
  match sub with
  | EmptyString => true
  | String a sub' =>
      match s with
      | EmptyString => false
      | String b s' => Ascii.eqb a b && startsWith s' sub'
      end
  end.

(** [String.prototype.includes]: [sub] occurs in [s] at some position. *)
Fixpoint includes (s sub : string) : bool :=
  startsWith s sub ||
  match s with
  | EmptyString => false
  | String _ s' => includes s' sub
  end.

(** [Array.prototype.includes] on an array of strings. *)
Definition arrayIncludes (l : list string) (x : string) : bool :=
  existsb (String.eqb x) l.

(** Matching a literal at the head of [s] under the [i] flag; the rest of
    the subject is returned. *)
Fixpoint literalCI (lit s : string) {struct lit} : option string :=
  match lit with
  | EmptyString => Some s
  | String a lit' =>
      match s with
      | EmptyString => None
      | String b s' =>
          if Ascii.eqb (upperChar a) (upperChar b) then literalCI lit' s'
          else None
      end
  end.

(** [\d+] at the head of [s]. *)
Definition digitsHere (s : string) : bool :=
  match s with
  | String c _ => isDigit c
  | EmptyString => false
  end.

(** The pattern [/balance:[<>]?\d+/i] anchored at the head of [s]. The
    optional class either consumes a comparator, and the digits follow
    it, or consumes nothing, and the digits follow the colon. *)
Definition balanceHere (s : string) : bool :=
  match literalCI "balance:" s with
  | None => false
  | Some r =>
      digitsHere r ||
      match r with
      | String c r' =>
          (Ascii.eqb c "<" || Ascii.eqb c ">")%char && digitsHere r'
      | EmptyString => false
      end
  end.

(** [/balance:[<>]?\d+/i.test(s)]: the pattern is not anchored. *)
Fixpoint testBalance (s : string) : bool :=
  balanceHere s ||
  match s with
  | EmptyString => false
  | String _ s' => testBalance s'
  end.

(** The longest run of digits at the head of [s]. *)
Fixpoint takeDigits (s : string) : string :=
  match s with
  | String c s' => if isDigit c then String c (takeDigits s') else EmptyString
  | EmptyString => EmptyString
  end.

(** [s.match(/(\d+)/)]: the first capture of the leftmost match, [None]
    for JavaScript's [null]. *)
Fixpoint matchDigits (s : string) : option string :=
  match s with
  | EmptyString => None
  | String c s' => if isDigit c then Some (takeDigits s) else matchDigits s'
  end.

Definition digitValue (c : ascii) : Z := Z.of_nat (nat_of_ascii c) - 48.

Fixpoint toNumberAcc (acc : Z) (s : string) : Z :=
  match s with
  | EmptyString => acc
  | String c s' => toNumberAcc (10 * acc + digitValue c) s'
  end.

(** Unary [+] on a string of decimal digits. *)
Definition toNumber (s : string) : Z := toNumberAcc 0 s.

(** A number in a template literal: the decimal numeral of a length. *)
Definition numberToString (n : nat) : string :=
  NilZero.string_of_uint (Nat.to_uint n).

(** Truthiness of [number | undefined]: [undefined] and [0] are falsy. *)
Definition truthy (x : option Z) : bool :=
  match x with
  | None => false
  | Some n => negb (n =? 0)
  end.

Section Sort.
Context {A : Type}.
Variable comparefn : A -> A -> Z.

(** One step of the insertion. [x] is the element being placed and
    [before] holds the elements in front of it, already in order, the
    last of them first. [comparefn] is asked about [x] and an element in
    front of it, in this order, and [x] moves in front of that element
    on a negative answer only. *)
Fixpoint insert (x : A) (before : list A) : list A :=
  match before with
  | [] => [x]
  | e :: rest =>
      if comparefn x e <? 0 then e :: insert x rest else x :: before
  end.

(** [Array.prototype.sort(comparefn)]. ECMAScript requires the sort to
    be stable and fixes its result when [comparefn] is a consistent
    comparison function; otherwise the order is left to the engine. The
    model is the insertion sort of the engine: the elements are placed
    one after the other, from the first to the last, each by [insert],
    so that [comparefn] always gets the later element as its first
    argument and the earlier one as its second. *)
Definition Array_sort (l : list A) : list A :=
  rev (fold_left (fun before x => insert x before) l []).
End Sort.

End JS.

Import JS.

(** ** Data model *)

(** [AccountArrayElement] of [./stored/accounts]. *)
Record AccountArrayElement := mkAccount {
  name : string;
  balance : Z;
  last_daily_award : option Z
}.

Definition AccountArray := list AccountArrayElement.

(** A rendered row, [tr[account_name]], as built by [showAccounts]. *)
Record Row := mkRow {
  account_name : string;       (* attribute account_name of the tr *)
  row_name : string;           (* text of [data-for=name] *)
  row_last_daily_award : string; (* text of [data-for=last_daily_award] *)
  row_checked : bool;          (* the banker checkbox *)
  row_value : Z                (* the balance input *)
}.

(** Calls made to collaborators, in the order they are made. *)
Inductive Call :=
| CallSetBanker (n : string) (b : bool)
| CallGetBankers
| CallIsBanker (n : string)
| CallGetAll
| CallRemoveAccounts (names : list string)
| CallNotify (msg : string).

Record World := mkWorld {
  input_value : string;          (* the search box *)
  sort_checked : string;         (* value of [name=sort]:checked *)
  rows : list Row;               (* the tbody *)
  accounts_store : AccountArray; (* AccountManager *)
  bankers_store : list string;   (* BankerManager *)
  calls : list Call              (* call log, oldest first *)
}.

(** ** The state monad the tab runs in *)

Definition M (A : Type) : Type := World -> A * World.

Definition ret {A : Type} (a : A) : M A := fun w => (a, w).

Definition bind {A B : Type} (m : M A) (k : A -> M B) : M B :=
  fun w => let (a, w') := m w in k a w'.

Notation "x <- m ;; k" := (bind m (fun x => k))
  (at level 61, m at next level, right associativity).
Notation "m ;; k" := (bind m (fun _ => k))
  (at level 61, right associativity).

(** The world a computation leaves behind, and its result. *)
Definition exec {A : Type} (m : M A) (w : World) : World := snd (m w).
Definition eval {A : Type} (m : M A) (w : World) : A := fst (m w).

Definition logCall (c : Call) : M unit :=
  fun w => (tt, mkWorld (input_value w) (sort_checked w) (rows w)
                        (accounts_store w) (bankers_store w) (calls w ++ [c])).

Definition setRows (rs : list Row) : M unit :=
  fun w => (tt, mkWorld (input_value w) (sort_checked w) rs
                        (accounts_store w) (bankers_store w) (calls w)).

Definition setAccountsStore (l : AccountArray) : M unit :=
  fun w => (tt, mkWorld (input_value w) (sort_checked w) (rows w)
                        l (bankers_store w) (calls w)).

Definition setBankersStore (l : list string) : M unit :=
  fun w => (tt, mkWorld (input_value w) (sort_checked w) (rows w)
                        (accounts_store w) l (calls w)).

Definition setInputValue (v : string) (w : World) : World :=
  mkWorld v (sort_checked w) (rows w) (accounts_store w) (bankers_store w)
          (calls w).

(** [querySelectorAll('tr[account_name]')] *)
Definition getRows : M (list Row) := fun w => (rows w, w).

(** [input.value] *)
Definition getInputValue : M string := fun w => (input_value w, w).

(** ** The stores of [./stored] *)

Module Stored.

(** Modelled from the spec: [AccountManager.getAll] of [./stored] is not
    among the sources; the Record Store "holds the full set of accounts"
    and [getAll] returns them as an ordered sequence. *)
Definition getAll : M AccountArray :=
  logCall CallGetAll ;; fun w => (accounts_store w, w).

(** Modelled from the spec: [AccountManager.removeAccounts] of [./stored]
    is not among the sources; "remove by name list" drops every account
    whose name is in the list. *)
Definition removeAccounts (names : list string) : M unit :=
  logCall (CallRemoveAccounts names) ;;
  all <- (fun w => (accounts_store w, w)) ;;
  setAccountsStore
    (filter (fun account => negb (arrayIncludes names (name account))) all).

(** Modelled from the spec: [BankerManager.getBankers] of [./stored] is
    not among the sources; "list all bankers" returns the names marked
    as bankers. *)
Definition getBankers : M (list string) :=
  logCall CallGetBankers ;; fun w => (bankers_store w, w).

(** Modelled from the spec: [BankerManager.isBanker] of [./stored] is not
    among the sources; membership of the name in the banker flag set. *)
Definition isBanker (n : string) : M bool :=
  logCall (CallIsBanker n) ;;
  fun w => (arrayIncludes (bankers_store w) n, w).

(** Modelled from the spec: the banker flag set is "a set of account
    names"; [withBanker n b old] is the set [old] with [n] put in, for
    [b = true], or taken out. *)
Definition withBanker (n : string) (b : bool) (old : list string)
  : list string :=
  let others := filter (fun m => negb (String.eqb n m)) old in
  if b then others ++ [n] else others.

(** Modelled from the spec: [BankerManager.setBanker] of [./stored] is
    not among the sources; the name is put into the banker flag set or
    taken out of it. *)
Definition setBanker (n : string) (b : bool) : M unit :=
  logCall (CallSetBanker n b) ;;
  old <- (fun w => (bankers_store w, w)) ;;
  setBankersStore (withBanker n b old).

End Stored.

Import Stored.

(** [this.ui.notify] *)
Definition notify (msg : string) : M unit := logCall (CallNotify msg).

(** ** [BankingTab.initAccountsTab] *)

Section AccountsTab.

(** [Date.prototype.toLocaleDateString] and [toLocaleTimeString] of the
    host, as functions of the epoch. *)
Variables toLocaleDateString toLocaleTimeString : Z -> string.

Definition formatDate (epoch : option Z) : string :=
  match epoch with
  | None => "Never"
  | Some e =>
      if e =? 0 then "Never"
      else toLocaleDateString e ++ " " ++ toLocaleTimeString e
  end.

(** [this.ui.buildTemplate(template, container, [...])] for one account:
    a row is appended to the tbody. *)
Definition rowOf (account : AccountArrayElement) (checked : bool) : Row :=
  mkRow (name account) (name account)
        (formatDate (last_daily_award account)) checked (balance account).

Definition buildRow (account : AccountArrayElement) : M unit :=
  checked <- isBanker (name account) ;;
  rs <- getRows ;;
  setRows (rs ++ [rowOf account checked]).

Fixpoint buildRows (accounts : AccountArray) : M unit :=
  match accounts with
  | [] => ret tt
  | account :: rest => buildRow account ;; buildRows rest
  end.

Definition showAccounts (accounts : AccountArray) : M unit :=
  setRows [] ;; buildRows accounts.

Definition getSortType : M string := fun w => (sort_checked w, w).

(** The four comparators of the [switch]. *)
Definition cmp_bal_d (a b : AccountArrayElement) : Z := balance b - balance a.

Definition cmp_bal_a (a b : AccountArrayElement) : Z := balance a - balance b.

Definition cmp_daily_d (a b : AccountArrayElement) : Z :=
  if negb (truthy (last_daily_award a)) then 1
  else if negb (truthy (last_daily_award b)) then -1
  else match last_daily_award a, last_daily_award b with
       | Some ta, Some tb => tb - ta
       | _, _ => 0
       end.

Definition cmp_daily_a (a b : AccountArrayElement) : Z :=
  if negb (truthy (last_daily_award a)) then 1
  else if negb (truthy (last_daily_award b)) then -1
  else match last_daily_award a, last_daily_award b with
       | Some ta, Some tb => ta - tb
       | _, _ => 0
       end.

(** The [switch (getSortType())]; any other value leaves the array as it
    is. *)
Definition sortAccounts (ty : string) (accounts : AccountArray) : AccountArray :=
  if (ty =? "bal_d")%string then Array_sort cmp_bal_d accounts
  else if (ty =? "bal_a")%string then Array_sort cmp_bal_a accounts
  else if (ty =? "daily_d")%string then Array_sort cmp_daily_d accounts
  else if (ty =? "daily_a")%string then Array_sort cmp_daily_a accounts
  else accounts.

(** The loop over the rendered rows at the head of [checkNames]. *)
Fixpoint updateBankers (rs : list Row) : M unit :=
  match rs with
  | [] => ret tt
  | row :: rest =>
      setBanker (account_name row) (row_checked row) ;; updateBankers rest
  end.

(** Lines 95-112: the filter chosen for the trimmed, upper-cased text. *)
Definition accountFilter (text : string)
  : M (AccountArrayElement -> bool) :=
  if (text =? "")%string then ret (fun _ => true)
  else if (text =? "IS:BANKER")%string then
    bankers <- getBankers ;;
    ret (fun account => arrayIncludes bankers (name account))
  else if testBalance text then
    let amount := match matchDigits text with
                  | Some d => toNumber d
                  | None => 0
                  end in
    if includes text "<" then ret (fun account => balance account <? amount)
    else if includes text ">" then ret (fun account => balance account >? amount)
    else ret (fun account => balance account =? amount)
  else ret (fun account => includes (name account) text).

(** Lines 94-112 as one step: the predicate for the raw text of the
    search box. *)
Definition parse (raw : string) : M (AccountArrayElement -> bool) :=
  accountFilter (trim (toLocaleUpperCase raw)).

(** Lines 142-145: the cap and its notice. *)
Definition capAccounts (accounts : AccountArray) : M AccountArray :=
  if (300 <? length accounts)%nat then
    notify ("Showing 300/" ++ numberToString (length accounts) ++ " matches") ;;
    ret (firstn 300 accounts)
  else ret accounts.

Definition checkNames : M unit :=
  rs <- getRows ;;
  updateBankers rs ;;
  v <- getInputValue ;;
  keep <- parse v ;;
  all <- getAll ;;
  let accounts := filter keep all in
  ty <- getSortType ;;
  let accounts := sortAccounts ty accounts in
  accounts <- capAccounts accounts ;;
  showAccounts accounts.

(** The callback handed to [this.ui.alert] by the delete button. *)
Definition onAlertResponse (response : string) : M unit :=
  if negb (response =? "Delete")%string then ret tt
  else
    rs <- getRows ;;
    let names := map account_name rs in
    removeAccounts names ;;
    checkNames.

End AccountsTab.

(** ** [debounce] of [./helpers] and the timer of the host *)

Module Helpers.

(** The event loop around the tab: the world, the timeout that is
    pending (its deadline and its callback), and a record of the
    callbacks the timer has run (when, and on which world). *)
Record Loop := mkLoop {
  world : World;
  timeout : option (Z * M unit);
  fired : list (Z * World)
}.

(** Modelled from the spec: [debounce] of [./helpers] is not among the
    sources. A call of the debounced function at time [now] "cancels and
    restarts the timer": the pending timeout, if any, is dropped and [fn]
    is scheduled [delay] time-units from [now]. *)
Definition debounce (fn : M unit) (delay : Z) (now : Z) (l : Loop) : Loop :=
  mkLoop (world l) (Some (now + delay, fn)) (fired l).

(** Time passes up to [now]: a pending timeout whose deadline has come
    runs its callback on the world of that moment. *)
Definition elapse (now : Z) (l : Loop) : Loop :=
  match timeout l with
  | Some (deadline, fn) =>
      if deadline <=? now
      then mkLoop (exec fn (world l)) None (fired l ++ [(deadline, world l)])
      else l
  | None => l
  end.

End Helpers.

Import Helpers.

Section Listeners.

Variables toLocaleDateString toLocaleTimeString : Z -> string.

Let run := checkNames toLocaleDateString toLocaleTimeString.

(** Line 151: an [input] event at time [now] that leaves [v] in the
    search box; its listener is [debounce(checkNames, 300)]. *)
Definition inputEvent (now : Z) (v : string) (l : Loop) : Loop :=
  let l := elapse now l in
  debounce run 300 now
           (mkLoop (setInputValue v (world l)) (timeout l) (fired l)).

(** A series of [input] events, each with its time and the text it
    leaves in the box. *)
Definition typing (events : list (Z * string)) (l : Loop) : Loop :=
  fold_left (fun l e => inputEvent (fst e) (snd e) l) events l.

End Listeners.

(** Consecutive events are less than 300 time-units apart, the first of
    them counted from [t]. *)
Fixpoint burst (t : Z) (events : list (Z * string)) : Prop :=
  match events with
  | [] => True
  | e :: rest => t <= fst e < t + 300 /\ burst (fst e) rest
  end.

(** ** The [change] listeners *)

(** The element a [change] event comes from: a checkbox, with the
    [account_name] attribute of the element three parents up ([None] when
    that element has no such attribute) and its state, or any other
    control of the tab (a sort radio, a balance field, the search box). *)
Inductive ChangeTarget :=
| Checkbox (attribute : option string) (checked : bool)
| OtherControl.

(** Lines 171-177: [row.getAttribute('account_name') || ''] is the
    attribute, or the empty name when there is none. *)
Definition onBankerChange (target : ChangeTarget) : M unit :=
  match target with
  | Checkbox attribute checked =>
      setBanker (match attribute with Some n => n | None => "" end) checked
  | OtherControl => ret tt
  end.

Section ChangeListeners.

Variables toLocaleDateString toLocaleTimeString : Z -> string.

(** A [change] event on the tab: its listeners run in the order they were
    added, [checkNames] (line 152) before the banker listener (line
    171). *)
Definition changeEvent (target : ChangeTarget) : M unit :=
  checkNames toLocaleDateString toLocaleTimeString ;; onBankerChange target.

End ChangeListeners.

(** ** Observations used in the statements *)

(** Texts made of white space only, the empty text among them. *)
Fixpoint isSpaces (s : string) : bool :=
  match s with
  | EmptyString => true
  | String c s' => isSpace c && isSpaces s'
  end.

(** Texts made of digits only. *)
Fixpoint isDigits (s : string) : bool :=
  match s with
  | EmptyString => true
  | String c s' => isDigit c && isDigits s'
  end.

(** The notices found in a call log. *)
Definition notifications (cs : list Call) : list string :=
  flat_map (fun c => match c with CallNotify msg => [msg] | _ => [] end) cs.

(** The reads of the whole banker list found in a call log. *)
Definition bankerReads (cs : list Call) : nat :=
  length (filter (fun c => match c with CallGetBankers => true | _ => false end) cs).

(** The runs of the pipeline found in a call log: every run of
    [checkNames] reads the accounts once. *)
Definition pipelineRuns (cs : list Call) : nat :=
  length (filter (fun c => match c with CallGetAll => true | _ => false end) cs).

(** The bulk removals found in a call log. *)
Definition removals (cs : list Call) : list (list string) :=
  flat_map (fun c => match c with CallRemoveAccounts ns => [ns] | _ => [] end) cs.

(** The banker flag set a run of [checkNames] works with: the store once
    the checkboxes of the rendered rows have been written back. *)
Definition bankersAtParse (w : World) : list string :=
  bankers_store (exec (updateBankers (rows w)) w).

(** The checkboxes of the rows written into a banker list, one after the
    other. *)
Definition reconcile (rs : list Row) (bs : list string) : list string :=
  fold_left (fun bs r => withBanker (account_name r) (row_checked r) bs) rs bs.

(** The filtered and sorted matches of a run of [checkNames], before the
    cap. *)
Definition matchesOf (w : World) : AccountArray :=
  sortAccounts (sort_checked w)
    (filter (eval (parse (input_value w)) (exec (updateBankers (rows w)) w))
            (accounts_store w)).





(** The time and the text of the last event of a series. *)
Definition lastEvent (e : Z * string) (events : list (Z * string))
  : Z * string := last events e.

(** ** Sample data *)

Definition sampleDate (e : Z) : string := "1/1/2019".
Definition sampleTime (e : Z) : string := "12:00:00 AM".

Definition alice : AccountArrayElement := mkAccount "ALICE" 120 (Some 1546300800000).
Definition bob : AccountArrayElement := mkAccount "BOB" 40 None.
Definition bobby : AccountArrayElement := mkAccount "BOBBY" 75 (Some 1546387200000).
Definition carol : AccountArrayElement := mkAccount "CAROL" 40 None.
Definition dave : AccountArrayElement := mkAccount "DAVE" 75 (Some 0).
Definition lowercase : AccountArrayElement := mkAccount "bob" 60 None.

(** A freshly mounted tab over five accounts, [BOB] being a banker. *)
Definition sampleWorld : World :=
  mkWorld "" "bal_d" [] [alice; bob; bobby; carol; dave] ["BOB"] [].

(** The same tab with an empty banker store and a rendered row whose
    checkbox marks [BOB], after some earlier run. *)
Definition staleWorld : World :=
  mkWorld "" "bal_d" [mkRow "BOB" "BOB" "Never" true 40]
          [alice; bob; bobby; carol; dave] [] [CallGetAll].

(** 301 accounts, none of them a banker, and an empty search box. *)
Definition crowdedWorld : World :=
  mkWorld "" "bal_a" []
          (map (fun n => mkAccount "PLAYER" (Z.of_nat n) None) (seq 0 301))
          [] [].

(** Two tabs searched for IS:BANKER over the same accounts and the same
    empty banker store; the second has a row on display whose checkbox
    marks [BOB]. *)
Definition bankerQuery : World :=
  mkWorld "is:banker" "bal_d" [] [alice; bob; bobby; carol; dave] [] [].

Definition bankerQueryChecked : World :=
  mkWorld "is:banker" "bal_d" [mkRow "BOB" "BOB" "Never" true 40]
          [alice; bob; bobby; carol; dave] [] [].

(** Two tabs that hold the same bankers, listed differently, and show a
    row of the same name and checkbox, with different texts and different
    call logs. *)
Definition bankersListed : World :=
  mkWorld "is:banker" "bal_a" [mkRow "CAROL" "CAROL" "Never" true 40]
          [alice; bob; bobby; carol; dave] ["BOB"; "ALICE"] [].

Definition bankersRelisted : World :=
  mkWorld "is:banker" "bal_a" [mkRow "CAROL" "Carol" "1/1/2019" true 0]
          [alice; bob; bobby; carol; dave] ["ALICE"; "BOB"; "BOB"] [CallGetAll].

(** * Properties *)

(** ** Strings *)

Section StringFacts.

Lemma startsWith_app (sub post : string) :
  startsWith (sub ++ post) sub = true.
Proof.
  induction sub as [|c sub IH]; simpl.
  - reflexivity.
  - now rewrite Ascii.eqb_refl.
Qed.

Lemma startsWith_inv (s sub : string) :
  startsWith s sub = true -> exists post, s = sub ++ post.
Proof.
  revert s; induction sub as [|a sub IH]; intros s H.
  - exists s. reflexivity.
  - destruct s as [|b s]; simpl in H; [discriminate|].
    apply andb_true_iff in H as [Hab Hrest].
    apply Ascii.eqb_eq in Hab; subst b.
    destruct (IH _ Hrest) as [post ->].
    exists post. reflexivity.
Qed.

Lemma includes_unfold (s sub : string) :
  includes s sub =
  startsWith s sub ||
  match s with
  | EmptyString => false
  | String _ s' => includes s' sub
  end.
Proof. destruct s; reflexivity. Qed.

(** [includes] is containment as a substring. *)
Lemma includes_spec (s sub : string) :
  includes s sub = true <-> exists pre post, s = pre ++ sub ++ post.
Proof.
  split.
  - induction s as [|c s IH]; rewrite includes_unfold; intros H.
    + apply orb_true_iff in H as [H|H]; [|discriminate].
      destruct (startsWith_inv _ _ H) as [post ->].
      exists EmptyString, post. reflexivity.
    + apply orb_true_iff in H as [H|H].
      * destruct (startsWith_inv _ _ H) as [post ->].
        exists EmptyString, post. reflexivity.
      * destruct (IH H) as (pre & post & ->).
        exists (String c pre), post. reflexivity.
  - intros (pre & post & ->).
    induction pre as [|c pre IH].
    + rewrite includes_unfold. simpl "++". now rewrite startsWith_app.
    + change (includes (String c (pre ++ sub ++ post)) sub = true).
      rewrite includes_unfold, IH. apply orb_true_r.
Qed.

End StringFacts.

(** ** The sort *)

Lemma StronglySorted_snoc {A : Type} (R : A -> A -> Prop) (l : list A) (x : A) :
  StronglySorted R l -> Forall (fun y => R y x) l ->
  StronglySorted R (l ++ [x]).
Proof.
  induction 1 as [|y l Hs IH Hy]; intros F; simpl.
  - constructor; constructor.
  - constructor.
    + apply IH. exact (Forall_inv_tail F).
    + apply Forall_app. split; [assumption|].
      constructor; [exact (Forall_inv F) | constructor].
Qed.

Lemma StronglySorted_rev {A : Type} (R : A -> A -> Prop) (l : list A) :
  StronglySorted R l -> StronglySorted (fun a b => R b a) (rev l).
Proof.
  induction 1 as [|y l Hs IH Hy]; simpl.
  - constructor.
  - apply StronglySorted_snoc; [assumption|]. now apply Forall_rev.
Qed.

Section SortFacts.

Context {A : Type}.
Variable comparefn : A -> A -> Z.

(** The sorted array is the reverse of what [insert] builds from the
    elements taken from the first to the last. *)
Lemma Array_sort_eq (l : list A) :
  Array_sort comparefn l = rev (fold_right (insert comparefn) [] (rev l)).
Proof.
  unfold Array_sort. f_equal. symmetry.
  apply (fold_left_rev_right (insert comparefn)).
Qed.

Lemma insert_perm (x : A) (l : list A) :
  Permutation (insert comparefn x l) (x :: l).
Proof.
  induction l as [|e l IH]; simpl.
  - apply Permutation_refl.
  - destruct (comparefn x e <? 0).
    + eapply Permutation_trans; [apply perm_skip, IH | apply perm_swap].
    + apply Permutation_refl.
Qed.

Lemma placed_perm (m : list A) :
  Permutation (fold_right (insert comparefn) [] m) m.
Proof.
  induction m as [|x m IH]; simpl.
  - apply perm_nil.
  - eapply Permutation_trans; [apply insert_perm | now apply perm_skip].
Qed.

Lemma Array_sort_perm (l : list A) :
  Permutation (Array_sort comparefn l) l.
Proof.
  rewrite Array_sort_eq.
  eapply Permutation_trans; [apply Permutation_sym, Permutation_rev|].
  eapply Permutation_trans; [apply placed_perm|].
  apply Permutation_sym, Permutation_rev.
Qed.

Lemma Array_sort_length (l : list A) :
  length (Array_sort comparefn l) = length l.
Proof. apply Permutation_length, Array_sort_perm. Qed.

(** For a comparator that is total and transitive the result is in
    order: no element compares less than one in front of it. *)
Lemma insert_sorted (x : A) (l : list A) :
  (forall a b, comparefn a b < 0 -> 0 <= comparefn b a) ->
  (forall a b c, 0 <= comparefn a b -> 0 <= comparefn b c -> 0 <= comparefn a c) ->
  StronglySorted (fun a b => 0 <= comparefn a b) l ->
  StronglySorted (fun a b => 0 <= comparefn a b) (insert comparefn x l).
Proof.
  intros Htot Htrans Hs. induction Hs as [|e l Hs IH He]; simpl.
  - constructor; constructor.
  - destruct (comparefn x e <? 0) eqn:Hc.
    + apply Z.ltb_lt in Hc. constructor; [assumption|].
      apply (Permutation_Forall (Permutation_sym (insert_perm x l))).
      constructor; [now apply Htot | assumption].
    + apply Z.ltb_ge in Hc. constructor; [now constructor|].
      constructor; [assumption|].
      eapply Forall_impl; [|exact He]. intros z Hz. now apply (Htrans x e z).
Qed.

Lemma Array_sort_sorted (l : list A) :
  (forall a b, comparefn a b < 0 -> 0 <= comparefn b a) ->
  (forall a b c, 0 <= comparefn a b -> 0 <= comparefn b c -> 0 <= comparefn a c) ->
  StronglySorted (fun a b => 0 <= comparefn b a) (Array_sort comparefn l).
Proof.
  intros Htot Htrans. rewrite Array_sort_eq.
  apply (StronglySorted_rev (fun a b => 0 <= comparefn a b)).
  induction (rev l) as [|x m IH]; simpl.
  - constructor.
  - now apply insert_sorted.
Qed.




(** In a list made of records of [p] followed by records outside [p], a
    position holding a record outside [p] comes after every position
    holding a record of [p]. *)
Lemma split_positions (p : A -> bool) (l1 l2 : list A) (i j : nat) (a b : A) :
  Forall (fun y => p y = true) l1 ->
  Forall (fun y => p y = false) l2 ->
  nth_error (l1 ++ l2) i = Some a ->
  nth_error (l1 ++ l2) j = Some b ->
  p a = false -> p b = true ->
  (j < i)%nat.
Proof.
  intros F1 F2 Hi Hj Ha Hb.
  rewrite Forall_forall in F1, F2.
  assert (Hil : (length l1 <= i)%nat).
  { destruct (le_lt_dec (length l1) i) as [|Hlt]; [assumption|].
    rewrite nth_error_app1 in Hi by assumption.
    apply nth_error_In in Hi. apply F1 in Hi. congruence. }
  assert (Hjl : (j < length l1)%nat).
  { destruct (le_lt_dec (length l1) j) as [Hle|]; [|assumption].
    rewrite nth_error_app2 in Hj by assumption.
    apply nth_error_In in Hj. apply F2 in Hj. congruence. }
  lia.
Qed.

End SortFacts.


(** The records of [p] come first and in order, the others behind them,
    when [comparefn] orders the records of [p] among themselves, puts
    them in front of the others, and never puts a record outside [p] in
    front of anything. *)
Section SortedPrefix.

Context {A : Type}.
Variable comparefn : A -> A -> Z.
Variable p : A -> bool.

Hypothesis behind : forall x y, p x = false -> 0 <= comparefn x y.
Hypothesis before : forall x y, p x = true -> p y = false -> comparefn x y < 0.
Hypothesis total :
  forall x y, p x = true -> p y = true -> comparefn x y < 0 -> 0 <= comparefn y x.
Hypothesis trans :
  forall x y z, p x = true -> p y = true -> p z = true ->
                0 <= comparefn x y -> 0 <= comparefn y z -> 0 <= comparefn x z.

Lemma insert_stays (x : A) (l : list A) :
  p x = false -> insert comparefn x l = x :: l.
Proof.
  intros Hx. destruct l as [|e l]; simpl; [reflexivity|].
  pose proof (behind x e Hx) as H. apply Z.ltb_ge in H. now rewrite H.
Qed.

Lemma insert_passes (x : A) (l2 l1 : list A) :
  p x = true -> Forall (fun y => p y = false) l2 ->
  insert comparefn x (l2 ++ l1) = (l2 ++ insert comparefn x l1)%list.
Proof.
  intros Hx H2. induction H2 as [|e l2 He H2 IH]; simpl; [reflexivity|].
  pose proof (before x e Hx He) as H. apply Z.ltb_lt in H. now rewrite H, IH.
Qed.

Lemma insert_sorted_prefix (x : A) (l : list A) :
  p x = true -> Forall (fun y => p y = true) l ->
  StronglySorted (fun a b => 0 <= comparefn a b) l ->
  StronglySorted (fun a b => 0 <= comparefn a b) (insert comparefn x l).
Proof.
  intros Hx Hp Hs. induction Hs as [|e l Hs IH He]; simpl.
  - constructor; constructor.
  - pose proof (Forall_inv Hp) as Pe. pose proof (Forall_inv_tail Hp) as Pl.
    destruct (comparefn x e <? 0) eqn:Hc.
    + apply Z.ltb_lt in Hc. constructor; [now apply IH|].
      apply (Permutation_Forall (Permutation_sym (insert_perm comparefn x l))).
      constructor; [now apply total | assumption].
    + apply Z.ltb_ge in Hc. constructor; [now constructor|].
      constructor; [assumption|].
      rewrite Forall_forall in He, Pl. apply Forall_forall. intros z Hz.
      apply (trans x e z); auto.
Qed.

Lemma Array_sort_sorted_prefix (l : list A) :
  exists l1 l2,
    Array_sort comparefn l = (l1 ++ l2)%list /\
    Forall (fun y => p y = true) l1 /\
    Forall (fun y => p y = false) l2 /\
    StronglySorted (fun a b => 0 <= comparefn b a) l1.
Proof.
  assert (H : forall m, exists l2 l1,
               fold_right (insert comparefn) [] m = (l2 ++ l1)%list /\
               Forall (fun y => p y = false) l2 /\
               Forall (fun y => p y = true) l1 /\
               StronglySorted (fun a b => 0 <= comparefn a b) l1).
  { induction m as [|x m IH].
    - exists [], []. repeat split; constructor.
    - destruct IH as (l2 & l1 & E & F2 & F1 & Hs).
      simpl. rewrite E. destruct (p x) eqn:Hx.
      + exists l2, (insert comparefn x l1).
        split; [now apply insert_passes|]. split; [assumption|].
        split; [|now apply insert_sorted_prefix].
        apply (Permutation_Forall (Permutation_sym (insert_perm comparefn x l1))).
        now constructor.
      + exists (x :: l2), l1.
        split; [now apply insert_stays|].
        split; [now constructor|]. now split. }
  destruct (H (rev l)) as (l2 & l1 & E & F2 & F1 & Hs).
  exists (rev l1), (rev l2).
  rewrite Array_sort_eq, E, rev_app_distr.
  split; [reflexivity|]. split; [now apply Forall_rev|].
  split; [now apply Forall_rev|].
  now apply (StronglySorted_rev (fun a b => 0 <= comparefn a b)).
Qed.

End SortedPrefix.

(** ** Running the monadic code *)

Lemma updateBankers_run (rs : list Row) (w : World) :
  updateBankers rs w =
  (tt, mkWorld (input_value w) (sort_checked w) (rows w) (accounts_store w)
               (reconcile rs (bankers_store w))
               (calls w ++ map (fun r => CallSetBanker (account_name r)
                                                       (row_checked r)) rs)).
Proof.
  revert w. induction rs as [|r rs IH]; intros w.
  - destruct w; simpl. unfold ret. now rewrite app_nil_r.
  - simpl updateBankers. unfold bind at 1.
    unfold setBanker, bind, logCall, setBankersStore. simpl.
    rewrite IH. simpl. now rewrite <- app_assoc.
Qed.

Lemma bankersAtParse_eq (w : World) :
  bankersAtParse w = reconcile (rows w) (bankers_store w).
Proof. unfold bankersAtParse, exec. now rewrite updateBankers_run. Qed.

(** Choosing the filter changes the world by at most one banker read, and
    the filter looks at the world through the banker list only. *)
Lemma accountFilter_run (text : string) (w : World) :
  accountFilter text w =
  (eval (accountFilter text) w,
   if (text =? "IS:BANKER")%string
   then mkWorld (input_value w) (sort_checked w) (rows w) (accounts_store w)
                (bankers_store w) (calls w ++ [CallGetBankers])
   else w).
Proof.
  unfold eval, accountFilter.
  destruct (text =? "")%string eqn:E0.
  - apply String.eqb_eq in E0; subst text. reflexivity.
  - destruct (text =? "IS:BANKER")%string; [reflexivity|].
    destruct (testBalance text); [|reflexivity].
    destruct (includes text "<"); [reflexivity|].
    destruct (includes text ">"); reflexivity.
Qed.

Lemma accountFilter_store (text : string) (w w' : World) :
  bankers_store w = bankers_store w' ->
  eval (accountFilter text) w = eval (accountFilter text) w'.
Proof.
  intros E. unfold eval, accountFilter.
  destruct (text =? "")%string; [reflexivity|].
  destruct (text =? "IS:BANKER")%string.
  - unfold bind, getBankers, logCall, ret; simpl. now rewrite E.
  - destruct (testBalance text); [|reflexivity].
    destruct (includes text "<"); [reflexivity|].
    destruct (includes text ">"); reflexivity.
Qed.


Section RunFacts.

Variables toLocaleDateString toLocaleTimeString : Z -> string.

Let rowOf' := rowOf toLocaleDateString toLocaleTimeString.
Let checkNames' := checkNames toLocaleDateString toLocaleTimeString.

Lemma buildRows_run (accounts : AccountArray) (w : World) :
  buildRows toLocaleDateString toLocaleTimeString accounts w =
  (tt, mkWorld (input_value w) (sort_checked w)
               (rows w ++ map (fun a => rowOf' a (arrayIncludes (bankers_store w) (name a)))
                              accounts)
               (accounts_store w) (bankers_store w)
               (calls w ++ map (fun a => CallIsBanker (name a)) accounts)).
Proof.
  revert w. induction accounts as [|a l IH]; intros w.
  - destruct w; simpl. unfold ret. now rewrite !app_nil_r.
  - simpl buildRows. unfold bind at 1.
    unfold buildRow, bind, isBanker, logCall, getRows, setRows. simpl.
    rewrite IH. simpl. now rewrite <- !app_assoc.
Qed.

(** The rows and the calls of a run, in full. *)
Lemma checkNames_run (w : World) :
  let bs := bankersAtParse w in
  let ms := matchesOf w in
  let over := (300 <? length ms)%nat in
  let shown := if over then firstn 300 ms else ms in
  exec checkNames' w =
  mkWorld (input_value w) (sort_checked w)
          (map (fun a => rowOf' a (arrayIncludes bs (name a))) shown)
          (accounts_store w) bs
          (calls w
           ++ map (fun r => CallSetBanker (account_name r) (row_checked r)) (rows w)
           ++ (if (trim (toLocaleUpperCase (input_value w)) =? "IS:BANKER")%string
               then [CallGetBankers] else [])
           ++ [CallGetAll]
           ++ (if over
               then [CallNotify ("Showing 300/" ++ numberToString (length ms)
                                                ++ " matches")]
               else [])
           ++ map (fun a => CallIsBanker (name a)) shown).
Proof.
  intros bs ms over shown.
  assert (Hms : ms = sortAccounts (sort_checked w)
                       (filter (eval (accountFilter
                                        (trim (toLocaleUpperCase (input_value w))))
                                     (exec (updateBankers (rows w)) w))
                               (accounts_store w))) by reflexivity.
  subst checkNames'. unfold exec, checkNames.
  unfold bind at 1. unfold getRows at 1.
  unfold bind at 1. rewrite updateBankers_run.
  unfold bind at 1. unfold getInputValue at 1. cbn [input_value].
  unfold bind at 1. unfold parse at 1. rewrite accountFilter_run.
  unfold exec in Hms. rewrite updateBankers_run in Hms. cbn [snd] in Hms.
  set (w1 := mkWorld (input_value w) (sort_checked w) (rows w)
                     (accounts_store w) (reconcile (rows w) (bankers_store w))
                     _) in *.
  set (keep := eval (accountFilter _) w1) in *.
  assert (Hbs : bs = reconcile (rows w) (bankers_store w))
    by apply bankersAtParse_eq.
  destruct (trim (toLocaleUpperCase (input_value w)) =? "IS:BANKER")%string;
    unfold bind, getAll, logCall, getSortType, capAccounts, showAccounts,
           setRows, notify; cbn -[firstn Nat.ltb sortAccounts numberToString];
    rewrite <- Hms; fold over;
    destruct over; unfold bind, logCall, ret;
    cbn -[firstn Nat.ltb sortAccounts numberToString];
    rewrite buildRows_run; cbn -[firstn Nat.ltb sortAccounts numberToString];
    subst shown; rewrite <- Hbs; rewrite <- ?app_assoc; reflexivity.
Qed.

End RunFacts.

(** ** The query parser *)

Lemma arrayIncludes_In (l : list string) (x : string) :
  arrayIncludes l x = true <-> In x l.
Proof.
  unfold arrayIncludes. rewrite existsb_exists. split.
  - intros (y & Hy & E). apply String.eqb_eq in E. now subst.
  - intros H. exists x. split; [assumption | apply String.eqb_refl].
Qed.

Lemma accountFilter_fallback
      (text : string) (w : World) (account : AccountArrayElement) :
  text <> "" -> text <> "IS:BANKER" -> testBalance text = false ->
  eval (accountFilter text) w account = includes (name account) text.
Proof.
  intros Hne Hnb Hnum. unfold eval, accountFilter.
  apply String.eqb_neq in Hne, Hnb. now rewrite Hne, Hnb, Hnum.
Qed.

(** Two texts that evaluate to different strings. *)
Ltac text_differs :=
  let H := fresh in intro H; vm_compute in H; discriminate H.

(** C1, as stated, fails: the search text [bob] is upper-cased to [BOB],
    the record name [bob] is compared as it is stored, so the record is
    rejected although its upper-cased name contains the upper-cased
    text. *)
Lemma parse_fallback_keeps_record_case :
  let text := trim (toLocaleUpperCase "bob") in
  text <> "" /\ text <> "IS:BANKER" /\ testBalance text = false /\
  includes (toLocaleUpperCase (name lowercase)) text = true /\
  eval (parse "bob") sampleWorld lowercase = false.
Proof. repeat split; (text_differs || reflexivity). Qed.

(** C1, amended: for every raw search string that is non-empty after
    trimming, is not the token IS:BANKER and does not match the pattern
    of the balance queries, the parsed predicate accepts a record if and
    only if the record name, as it is stored, contains the upper-cased,
    trimmed search text as a substring; for a record whose stored name is
    in upper case already this is containment in the upper-cased name. *)
Theorem parse_fallback_substring
        (raw : string) (w : World) (account : AccountArrayElement) :
  let text := trim (toLocaleUpperCase raw) in
  text <> "" -> text <> "IS:BANKER" -> testBalance text = false ->
  eval (parse raw) w account = includes (name account) text /\
  (eval (parse raw) w account = true <->
   exists pre post, name account = pre ++ text ++ post) /\
  (toLocaleUpperCase (name account) = name account ->
   eval (parse raw) w account = includes (toLocaleUpperCase (name account)) text).
Proof.
  intros text Hne Hnb Hnum. subst text.
  pose proof (accountFilter_fallback _ w account Hne Hnb Hnum) as E.
  fold (parse raw) in E.
  split; [exact E|]. split.
  - rewrite E. apply includes_spec.
  - intros Hup. now rewrite Hup.
Qed.

Lemma parse_fallback_substring_witness :
  eval (parse "  bob ") sampleWorld bobby = true /\
  eval (parse "  bob ") sampleWorld alice = false.
Proof.
  split.
  - destruct (parse_fallback_substring "  bob " sampleWorld bobby)
      as [E _]; [text_differs | text_differs | reflexivity | exact E].
  - destruct (parse_fallback_substring "  bob " sampleWorld alice)
      as [E _]; [text_differs | text_differs | reflexivity | exact E].
Defined.

(** C2, as stated, fails: [balance>50] has no colon, the pattern does not
    match it, and the text is searched for in the names instead: a record
    with balance 60 is rejected, a record named [BALANCE>50] with balance
    0 is accepted. *)
Lemma parse_balance_needs_colon :
  testBalance (trim (toLocaleUpperCase "balance>50")) = false /\
  eval (parse "balance>50") sampleWorld (mkAccount "RICH" 60 None) = false /\
  eval (parse "balance>50") sampleWorld (mkAccount "BALANCE>50" 0 None) = true.
Proof. repeat split; reflexivity. Qed.

(** C2, amended: [parse("balance:<100")] accepts exactly the records with
    balance < 100, [parse("balance:>50")] exactly those with balance > 50
    and [parse("balance:75")] exactly those with balance = 75; the form
    without the colon, [balance>50], is not a numeric query: it accepts
    exactly the records whose name contains [BALANCE>50]. *)
Theorem parse_balance_forms (w : World) (account : AccountArrayElement) :
  eval (parse "balance:<100") w account = (balance account <? 100) /\
  eval (parse "balance:>50") w account = (balance account >? 50) /\
  eval (parse "balance:75") w account = (balance account =? 75) /\
  eval (parse "balance>50") w account = includes (name account) "BALANCE>50".
Proof. repeat split; reflexivity. Qed.

(** C6: the predicate for the token IS:BANKER (trimmed, in any case)
    accepts a record if and only if its name is in the banker flag set,
    whatever its balance and last award; one parse reads the banker list
    once, and so does a whole run of [checkNames], however many records
    are tested. *)
Theorem parse_is_banker (raw : string) (w : World) :
  trim (toLocaleUpperCase raw) = "IS:BANKER" ->
  (forall account,
      eval (parse raw) w account = true <-> In (name account) (bankers_store w)) /\
  (forall n b d b' d',
      eval (parse raw) w (mkAccount n b d) = eval (parse raw) w (mkAccount n b' d')) /\
  calls (exec (parse raw) w) = (calls w ++ [CallGetBankers])%list /\
  (forall dl tl,
      input_value w = raw ->
      bankerReads (calls (exec (checkNames dl tl) w)) = S (bankerReads (calls w))).
Proof.
  intros E.
  assert (Hp : forall account,
             eval (parse raw) w account = arrayIncludes (bankers_store w) (name account)).
  { intros account. unfold parse, eval. rewrite E. reflexivity. }
  repeat split.
  - rewrite Hp. apply arrayIncludes_In.
  - rewrite Hp. apply arrayIncludes_In.
  - intros. now rewrite !Hp.
  - unfold parse, exec. rewrite accountFilter_run, E. reflexivity.
  - intros dl tl Hin. rewrite checkNames_run. cbn [calls].
    rewrite Hin, E. cbn [String.eqb Ascii.eqb Bool.eqb].
    unfold bankerReads. rewrite !filter_app, !length_app.
    assert (H1 : forall rs : list Row,
               filter (fun c => match c with CallGetBankers => true | _ => false end)
                      (map (fun r => CallSetBanker (account_name r) (row_checked r)) rs) = []).
    { induction rs; simpl; auto. }
    assert (H2 : forall l : AccountArray,
               filter (fun c => match c with CallGetBankers => true | _ => false end)
                      (map (fun a => CallIsBanker (name a)) l) = []).
    { induction l; simpl; auto. }
    rewrite H1, H2.
    destruct (300 <? length (matchesOf w))%nat; simpl; lia.
Qed.

Lemma parse_is_banker_witness :
  eval (parse " is:banker ") sampleWorld bob = true /\
  eval (parse " is:banker ") sampleWorld bobby = false /\
  calls (exec (parse " is:banker ") sampleWorld) = [CallGetBankers].
Proof.
  destruct (parse_is_banker " is:banker " sampleWorld eq_refl)
    as (Hmem & _ & Hcalls & _).
  split; [|split].
  - apply Hmem. simpl. auto.
  - destruct (eval (parse " is:banker ") sampleWorld bobby) eqn:Hb; [|reflexivity].
    apply Hmem in Hb. simpl in Hb. destruct Hb as [Hb|[]]. discriminate.
  - exact Hcalls.
Defined.

(** ** The result pipeline *)

Lemma flat_map_map_nil {A B C : Type} (f : B -> list C) (g : A -> B) (l : list A) :
  (forall x, f (g x) = []) -> flat_map f (map g l) = [].
Proof.
  intros H. induction l as [|x l IH]; simpl; [reflexivity|].
  now rewrite H, IH.
Qed.

Lemma sortAccounts_perm (ty : string) (l : AccountArray) :
  Permutation (sortAccounts ty l) l.
Proof.
  unfold sortAccounts.
  repeat match goal with
         | |- context [if ?c then _ else _] => destruct c
         end; try apply Array_sort_perm.
  apply Permutation_refl.
Qed.

Lemma matchesOf_In (w : World) (a : AccountArrayElement) :
  In a (matchesOf w) -> In a (accounts_store w).
Proof.
  intros H. unfold matchesOf in H.
  apply (Permutation_in _ (sortAccounts_perm _ _)) in H.
  now apply filter_In in H.
Qed.

(** Under the balance modes the matches come out in order of balance. *)
Lemma sortAccounts_bal_sorted (l : AccountArray) :
  StronglySorted (fun a b => 0 <= balance a - balance b) (sortAccounts "bal_d" l) /\
  StronglySorted (fun a b => 0 <= balance b - balance a) (sortAccounts "bal_a" l).
Proof.
  split.
  - apply (Array_sort_sorted cmp_bal_d l); unfold cmp_bal_d; intros; lia.
  - apply (Array_sort_sorted cmp_bal_a l); unfold cmp_bal_a; intros; lia.
Qed.

(** The search [balance:10] over three records, by descending balance:
    the two records of balance 10 in their stored order. *)
Example checkNames_balance_10 :
  map account_name
      (rows (exec (checkNames sampleDate sampleTime)
                  (mkWorld "balance:10" "bal_d" []
                           [mkAccount "AAA" 10 None; mkAccount "BBB" 200 None;
                            mkAccount "CCC" 10 None] [] [])))
  = ["AAA"; "CCC"].
Proof. reflexivity. Qed.

Section PipelineFacts.

Variables toLocaleDateString toLocaleTimeString : Z -> string.

Let checkNames' := checkNames toLocaleDateString toLocaleTimeString.

(** What one run adds to the call log. *)
Lemma checkNames_calls (w : World) :
  exists delta,
    calls (exec checkNames' w) = (calls w ++ delta)%list /\
    removals delta = [] /\
    notifications delta =
      if (300 <? length (matchesOf w))%nat
      then ["Showing 300/" ++ numberToString (length (matchesOf w)) ++ " matches"]
      else [].
Proof.
  subst checkNames'. rewrite checkNames_run. cbn [calls].
  eexists. split; [reflexivity|].
  unfold removals, notifications.
  rewrite !flat_map_app, !flat_map_map_nil by reflexivity.
  destruct (trim (toLocaleUpperCase (input_value w)) =? "IS:BANKER")%string;
    destruct (300 <? length (matchesOf w))%nat; split; reflexivity.
Qed.

(** The rows of a run name the shown records, in order. *)
Lemma checkNames_rows (w : World) :
  map account_name (rows (exec checkNames' w)) =
  map name (if (300 <? length (matchesOf w))%nat
            then firstn 300 (matchesOf w) else matchesOf w).
Proof.
  subst checkNames'. rewrite checkNames_run. cbn [rows].
  rewrite map_map. reflexivity.
Qed.

(** Two runs over worlds that agree on the search text, the sort mode,
    the accounts and the banker list at parse time have the same
    matches. *)
Lemma matchesOf_ext (w1 w2 : World) :
  input_value w1 = input_value w2 ->
  sort_checked w1 = sort_checked w2 ->
  accounts_store w1 = accounts_store w2 ->
  bankersAtParse w1 = bankersAtParse w2 ->
  matchesOf w1 = matchesOf w2.
Proof.
  intros Ei Es Ea Eb. unfold matchesOf, parse.
  rewrite Ei, Es, Ea.
  now rewrite (accountFilter_store _ _ (exec (updateBankers (rows w2)) w2)).
Qed.

End PipelineFacts.

(** C3: in every run of [checkNames], if the filtered and sorted matches
    are more than 300, exactly 300 rows are shown (the first 300 matches)
    and exactly one notice is sent in the run, reporting 300 and the number
    of matches before the cut; if they are at most 300, all of them are
    shown and no notice is sent. *)
Theorem checkNames_cap (dl tl : Z -> string) (w : World) :
  let w' := exec (checkNames dl tl) w in
  let ms := matchesOf w in
  ((300 < length ms)%nat ->
     length (rows w') = 300%nat /\
     map account_name (rows w') = map name (firstn 300 ms) /\
     notifications (calls w') =
       (notifications (calls w)
        ++ [("Showing 300/" ++ numberToString (length ms) ++ " matches")%string])%list) /\
  ((length ms <= 300)%nat ->
     map account_name (rows w') = map name ms /\
     notifications (calls w') = notifications (calls w)).
Proof.
  intros w' ms.
  destruct (checkNames_calls dl tl w) as (delta & Hcalls & _ & Hnote).
  pose proof (checkNames_rows dl tl w) as Hrows.
  fold w' in Hcalls, Hrows. fold ms in Hnote, Hrows.
  split; intros Hlen.
  - apply Nat.ltb_lt in Hlen as Hb. rewrite Hb in Hnote, Hrows.
    split; [|split].
    + rewrite <- (length_map account_name), Hrows, length_map.
      apply firstn_length_le. lia.
    + exact Hrows.
    + rewrite Hcalls. unfold notifications at 1. rewrite flat_map_app.
      fold (notifications (calls w)). fold (notifications delta).
      now rewrite Hnote.
  - apply Nat.ltb_ge in Hlen as Hb. rewrite Hb in Hnote, Hrows.
    split; [exact Hrows|].
    rewrite Hcalls. unfold notifications at 1. rewrite flat_map_app.
    fold (notifications (calls w)). fold (notifications delta).
    rewrite Hnote. apply app_nil_r.
Qed.

Lemma checkNames_cap_witness :
  (300 < length (matchesOf crowdedWorld))%nat /\
  length (rows (exec (checkNames sampleDate sampleTime) crowdedWorld)) = 300%nat /\
  notifications (calls (exec (checkNames sampleDate sampleTime) crowdedWorld)) =
    ["Showing 300/301 matches"].
Proof.
  assert (H : (300 < length (matchesOf crowdedWorld))%nat)
    by (apply Nat.ltb_lt; vm_compute; reflexivity).
  split; [exact H|].
  destruct (checkNames_cap sampleDate sampleTime crowdedWorld) as [Hover _].
  destruct (Hover H) as (Hlen & _ & Hnote).
  split; [exact Hlen|].
  rewrite Hnote. vm_compute. reflexivity.
Defined.

(** ** The banker flags *)

Lemma arrayIncludes_app (l1 l2 : list string) (x : string) :
  arrayIncludes (l1 ++ l2) x = arrayIncludes l1 x || arrayIncludes l2 x.
Proof. unfold arrayIncludes. apply existsb_app. Qed.

Lemma withBanker_same (n : string) (b : bool) (bs : list string) :
  arrayIncludes (withBanker n b bs) n = b.
Proof.
  assert (H : arrayIncludes (filter (fun m => negb (n =? m)%string) bs) n = false).
  { induction bs as [|k bs IH]; [reflexivity|]. simpl.
    destruct (n =? k)%string eqn:E; simpl; [exact IH|].
    unfold arrayIncludes in *. simpl. now rewrite E, IH. }
  unfold withBanker. destruct b; [|exact H].
  rewrite arrayIncludes_app, H. unfold arrayIncludes. simpl.
  now rewrite String.eqb_refl.
Qed.

Lemma withBanker_other (n m : string) (b : bool) (bs : list string) :
  m <> n -> arrayIncludes (withBanker n b bs) m = arrayIncludes bs m.
Proof.
  intros Hmn.
  assert (H : arrayIncludes (filter (fun k => negb (n =? k)%string) bs) m
              = arrayIncludes bs m).
  { induction bs as [|k bs IH]; [reflexivity|]. simpl.
    unfold arrayIncludes in *.
    destruct (n =? k)%string eqn:E; simpl; rewrite IH; [|reflexivity].
    apply String.eqb_eq in E. subst k.
    apply String.eqb_neq in Hmn. now rewrite Hmn. }
  unfold withBanker. destruct b; [|exact H].
  rewrite arrayIncludes_app, H. unfold arrayIncludes at 2. simpl.
  apply String.eqb_neq in Hmn. rewrite Hmn. now rewrite !orb_false_r.
Qed.

Lemma reconcile_app (rs1 rs2 : list Row) (bs : list string) :
  reconcile (rs1 ++ rs2) bs = reconcile rs2 (reconcile rs1 bs).
Proof. unfold reconcile. apply fold_left_app. Qed.

Lemma reconcile_other (rs : list Row) (bs : list string) (m : string) :
  ~ In m (map account_name rs) ->
  arrayIncludes (reconcile rs bs) m = arrayIncludes bs m.
Proof.
  revert bs. induction rs as [|r rs IH]; intros bs Hm; [reflexivity|].
  simpl in Hm. change (reconcile (r :: rs) bs)
    with (reconcile rs (withBanker (account_name r) (row_checked r) bs)).
  rewrite IH by tauto. apply withBanker_other. intros E. apply Hm. now left.
Qed.

Lemma reconcile_last (rs rs' : list Row) (r : Row) (bs : list string) :
  ~ In (account_name r) (map account_name rs') ->
  arrayIncludes (reconcile (rs ++ r :: rs') bs) (account_name r) = row_checked r.
Proof.
  intros Hlast. rewrite reconcile_app.
  change (reconcile (r :: rs') (reconcile rs bs))
    with (reconcile rs' (withBanker (account_name r) (row_checked r)
                                    (reconcile rs bs))).
  rewrite reconcile_other by assumption. apply withBanker_same.
Qed.

(** Writing back checkboxes that show the flags of the store changes no
    flag. *)
Lemma reconcile_agree (rs : list Row) (bs bs' : list string) :
  (forall r, In r rs -> row_checked r = arrayIncludes bs (account_name r)) ->
  (forall m, arrayIncludes bs' m = arrayIncludes bs m) ->
  forall m, arrayIncludes (reconcile rs bs') m = arrayIncludes bs m.
Proof.
  revert bs'. induction rs as [|r rs IH]; intros bs' Hrows Hbs m; [apply Hbs|].
  change (reconcile (r :: rs) bs')
    with (reconcile rs (withBanker (account_name r) (row_checked r) bs')).
  apply IH.
  - intros r' Hr'. apply Hrows. now right.
  - intros k. destruct (string_dec k (account_name r)) as [->|Hk].
    + rewrite withBanker_same. apply Hrows. now left.
    + rewrite withBanker_other by assumption. apply Hbs.
Qed.

(** The filter looks at the banker list through membership only. *)
Lemma accountFilter_members (text : string) (w1 w2 : World) :
  (forall m, arrayIncludes (bankers_store w1) m = arrayIncludes (bankers_store w2) m) ->
  forall a, eval (accountFilter text) w1 a = eval (accountFilter text) w2 a.
Proof.
  intros Hm a. unfold eval, accountFilter.
  destruct (text =? "")%string; [reflexivity|].
  destruct (text =? "IS:BANKER")%string.
  - unfold bind, getBankers, logCall, ret; simpl. apply Hm.
  - destruct (testBalance text); [|reflexivity].
    destruct (includes text "<"); [reflexivity|].
    destruct (includes text ">"); reflexivity.
Qed.

Lemma matchesOf_members (w1 w2 : World) :
  input_value w1 = input_value w2 ->
  sort_checked w1 = sort_checked w2 ->
  accounts_store w1 = accounts_store w2 ->
  (forall m, arrayIncludes (bankersAtParse w1) m = arrayIncludes (bankersAtParse w2) m) ->
  matchesOf w1 = matchesOf w2.
Proof.
  intros Ei Es Ea Eb. unfold matchesOf, parse. rewrite Ei, Es, Ea.
  f_equal. apply filter_ext. apply accountFilter_members. exact Eb.
Qed.

Lemma reconcile_members (rs1 rs2 : list Row) :
  forall bs1 bs2,
    map (fun r => (account_name r, row_checked r)) rs1
    = map (fun r => (account_name r, row_checked r)) rs2 ->
    (forall m, arrayIncludes bs1 m = arrayIncludes bs2 m) ->
    forall m, arrayIncludes (reconcile rs1 bs1) m = arrayIncludes (reconcile rs2 bs2) m.
Proof.
  revert rs2. induction rs1 as [|r1 rs1 IH]; intros [|r2 rs2] bs1 bs2 Hk Hb;
    try discriminate.
  - exact Hb.
  - simpl in Hk. inversion Hk as [[Hn Hc Hrest]].
    change (reconcile (r1 :: rs1) bs1)
      with (reconcile rs1 (withBanker (account_name r1) (row_checked r1) bs1)).
    change (reconcile (r2 :: rs2) bs2)
      with (reconcile rs2 (withBanker (account_name r2) (row_checked r2) bs2)).
    apply IH; [exact Hrest|]. intros k. rewrite Hn, Hc.
    destruct (string_dec k (account_name r2)) as [->|Hne].
    + now rewrite !withBanker_same.
    + rewrite !withBanker_other by assumption. apply Hb.
Qed.

(** C7, as stated, fails: two worlds with the same search text, sort
    mode, accounts and banker store, the second with a rendered row whose
    checkbox marks [BOB]; the run writes the checkbox into the banker
    store before it parses, and shows [BOB] in the second world and
    nothing in the first. *)
Lemma rendered_checkbox_changes_view :
  input_value bankerQuery = input_value bankerQueryChecked /\
  sort_checked bankerQuery = sort_checked bankerQueryChecked /\
  accounts_store bankerQuery = accounts_store bankerQueryChecked /\
  bankers_store bankerQuery = bankers_store bankerQueryChecked /\
  map account_name (rows (exec (checkNames sampleDate sampleTime) bankerQuery))
  = [] /\
  map account_name (rows (exec (checkNames sampleDate sampleTime) bankerQueryChecked))
  = ["BOB"].
Proof. repeat split. Qed.

(** C7, amended: the view is a function of the raw search text, the sort
    mode, the record snapshot, the banker flag set and the checkboxes of
    the rows on display, which a run writes into the banker store before
    it parses: two runs that agree on the text, the mode and the records,
    on the set of bankers (whatever the order of the list) and on the
    names and checkbox states of the rendered rows show the same rows in
    the same order, whatever else differs between the two worlds. *)
Theorem checkNames_deterministic (dl tl : Z -> string) (w1 w2 : World) :
  input_value w1 = input_value w2 ->
  sort_checked w1 = sort_checked w2 ->
  accounts_store w1 = accounts_store w2 ->
  (forall n, arrayIncludes (bankers_store w1) n = arrayIncludes (bankers_store w2) n) ->
  map (fun r => (account_name r, row_checked r)) (rows w1)
  = map (fun r => (account_name r, row_checked r)) (rows w2) ->
  rows (exec (checkNames dl tl) w1) = rows (exec (checkNames dl tl) w2).
Proof.
  intros Ei Es Ea Eb Er.
  assert (Hm : forall n, arrayIncludes (bankersAtParse w1) n
                         = arrayIncludes (bankersAtParse w2) n).
  { intros n. rewrite !bankersAtParse_eq. now apply reconcile_members. }
  rewrite !checkNames_run. cbn [rows].
  rewrite (matchesOf_members w1 w2 Ei Es Ea Hm).
  apply map_ext. intros a. now rewrite Hm.
Qed.

Lemma checkNames_deterministic_witness :
  rows (exec (checkNames sampleDate sampleTime) bankersListed) =
  rows (exec (checkNames sampleDate sampleTime) bankersRelisted).
Proof.
  apply (checkNames_deterministic sampleDate sampleTime bankersListed bankersRelisted);
    try reflexivity.
  intros n. unfold arrayIncludes. simpl.
  destruct (n =? "BOB")%string, (n =? "ALICE")%string; reflexivity.
Defined.

(** ** The deletion flow *)

Lemma removeAccounts_run (names : list string) (w : World) :
  removeAccounts names w =
  (tt, mkWorld (input_value w) (sort_checked w) (rows w)
               (filter (fun a => negb (arrayIncludes names (name a)))
                       (accounts_store w))
               (bankers_store w)
               (calls w ++ [CallRemoveAccounts names])).
Proof. reflexivity. Qed.

(** C9: when the answer is Delete, the names of the rows on display, and
    only they, go to the bulk removal of the record store, once, and
    [checkNames] runs on the result, so that none of these names is left
    in the store or on display; any other answer leaves the world (record
    store, banker store, rows) as it was. *)
Theorem delete_flow (dl tl : Z -> string) (response : string) (w : World) :
  let names := map account_name (rows w) in
  let w' := exec (onAlertResponse dl tl response) w in
  (response = "Delete" ->
     removals (calls w') = (removals (calls w) ++ [names])%list /\
     accounts_store w' =
       filter (fun a => negb (arrayIncludes names (name a))) (accounts_store w) /\
     w' = exec (checkNames dl tl) (exec (removeAccounts names) w) /\
     (forall r, In r (rows w') -> ~ In (account_name r) names)) /\
  (response <> "Delete" -> w' = w).
Proof.
  intros names w'. split.
  - intros ->.
    assert (Hw' : w' = exec (checkNames dl tl) (exec (removeAccounts names) w)).
    { subst w'. unfold onAlertResponse. cbn [String.eqb Ascii.eqb Bool.eqb negb].
      unfold exec, bind, getRows. fold names.
      rewrite removeAccounts_run. reflexivity. }
    set (w2 := exec (removeAccounts names) w) in *.
    assert (Hw2 : w2 = mkWorld (input_value w) (sort_checked w) (rows w)
                               (filter (fun a => negb (arrayIncludes names (name a)))
                                       (accounts_store w))
                               (bankers_store w)
                               (calls w ++ [CallRemoveAccounts names]))
      by reflexivity.
    destruct (checkNames_calls dl tl w2) as (delta & Hcalls & Hrem & _).
    rewrite <- Hw' in Hcalls.
    split; [|split; [|split]].
    + rewrite Hcalls. unfold removals at 1. rewrite flat_map_app.
      fold (removals delta). rewrite Hrem, app_nil_r.
      rewrite Hw2. cbn [calls]. rewrite flat_map_app. reflexivity.
    + rewrite Hw', checkNames_run. cbn [accounts_store].
      rewrite Hw2. reflexivity.
    + exact Hw'.
    + intros r Hr Hin.
      rewrite Hw', checkNames_run in Hr. cbn [rows] in Hr.
      apply in_map_iff in Hr as (a & <- & Ha). cbn [account_name rowOf] in Hin.
      assert (Hms : In a (matchesOf w2))
        by (destruct (300 <? length (matchesOf w2))%nat;
            [rewrite <- (firstn_skipn 300); apply in_or_app; now left
            | assumption]).
      apply matchesOf_In in Hms. rewrite Hw2 in Hms. cbn [accounts_store] in Hms.
      apply filter_In in Hms as [_ Hkeep].
      apply arrayIncludes_In in Hin. rewrite Hin in Hkeep. discriminate.
  - intros Hne. subst w'. unfold onAlertResponse.
    apply String.eqb_neq in Hne. rewrite Hne. reflexivity.
Qed.

Lemma delete_flow_witness :
  exec (onAlertResponse sampleDate sampleTime "Cancel") staleWorld = staleWorld /\
  removals (calls (exec (onAlertResponse sampleDate sampleTime "Delete") staleWorld))
  = [["BOB"]] /\
  accounts_store (exec (onAlertResponse sampleDate sampleTime "Delete") staleWorld)
  = [alice; bobby; carol; dave].
Proof.
  destruct (delete_flow sampleDate sampleTime "Cancel" staleWorld) as [_ Hcancel].
  destruct (delete_flow sampleDate sampleTime "Delete" staleWorld) as [Hdelete _].
  destruct (Hdelete eq_refl) as (Hrem & Hstore & _).
  split; [|split].
  - apply Hcancel. text_differs.
  - exact Hrem.
  - exact Hstore.
Defined.

(** ** The sort selector *)

(** Under the last-award modes a record without a usable timestamp always
    compares after, and a record with one always compares before a record
    without. *)
Lemma cmp_daily_d_last (x y : AccountArrayElement) :
  truthy (last_daily_award x) = false -> 0 < cmp_daily_d x y.
Proof. intros H. unfold cmp_daily_d. rewrite H. simpl. lia. Qed.

Lemma cmp_daily_a_last (x y : AccountArrayElement) :
  truthy (last_daily_award x) = false -> 0 < cmp_daily_a x y.
Proof. intros H. unfold cmp_daily_a. rewrite H. simpl. lia. Qed.

Lemma cmp_daily_d_first (x y : AccountArrayElement) :
  truthy (last_daily_award x) = true -> truthy (last_daily_award y) = false ->
  cmp_daily_d x y < 0.
Proof. intros Hx Hy. unfold cmp_daily_d. rewrite Hx, Hy. simpl. lia. Qed.

Lemma cmp_daily_a_first (x y : AccountArrayElement) :
  truthy (last_daily_award x) = true -> truthy (last_daily_award y) = false ->
  cmp_daily_a x y < 0.
Proof. intros Hx Hy. unfold cmp_daily_a. rewrite Hx, Hy. simpl. lia. Qed.

Lemma truthy_Some (t : Z) : t <> 0 -> truthy (Some t) = true.
Proof. intros H. simpl. apply Z.eqb_neq in H. now rewrite H. Qed.

Lemma truthy_inv (x : option Z) :
  truthy x = true -> exists t, x = Some t /\ t <> 0.
Proof.
  destruct x as [t|]; [|discriminate]. simpl. intros H.
  exists t. split; [reflexivity|].
  apply negb_true_iff in H. now apply Z.eqb_neq.
Qed.

Lemma cmp_daily_dated (a b : AccountArrayElement) (ta tb : Z) :
  last_daily_award a = Some ta -> ta <> 0 ->
  last_daily_award b = Some tb -> tb <> 0 ->
  cmp_daily_d a b = tb - ta /\ cmp_daily_a a b = ta - tb.
Proof.
  intros Ha Hta Hb Htb. unfold cmp_daily_d, cmp_daily_a.
  rewrite Ha, Hb, (truthy_Some ta Hta), (truthy_Some tb Htb). now split.
Qed.

(** An array sorted by last award: the records with a usable timestamp,
    in order, and behind them the records without. *)
Lemma daily_sorted_prefix (l : AccountArray) :
  (exists l1 l2,
      sortAccounts "daily_d" l = (l1 ++ l2)%list /\
      Forall (fun y => truthy (last_daily_award y) = true) l1 /\
      Forall (fun y => truthy (last_daily_award y) = false) l2 /\
      StronglySorted (fun a b => 0 <= cmp_daily_d b a) l1) /\
  (exists l1 l2,
      sortAccounts "daily_a" l = (l1 ++ l2)%list /\
      Forall (fun y => truthy (last_daily_award y) = true) l1 /\
      Forall (fun y => truthy (last_daily_award y) = false) l2 /\
      StronglySorted (fun a b => 0 <= cmp_daily_a b a) l1).
Proof.
  split.
  - apply (Array_sort_sorted_prefix cmp_daily_d
             (fun y => truthy (last_daily_award y))).
    + intros x y Hx. pose proof (cmp_daily_d_last x y Hx). lia.
    + intros x y. apply cmp_daily_d_first.
    + intros x y Hx Hy.
      destruct (truthy_inv _ Hx) as (tx & Ex & Nx).
      destruct (truthy_inv _ Hy) as (ty & Ey & Ny).
      destruct (cmp_daily_dated x y tx ty Ex Nx Ey Ny) as [-> _].
      destruct (cmp_daily_dated y x ty tx Ey Ny Ex Nx) as [-> _]. lia.
    + intros x y z Hx Hy Hz.
      destruct (truthy_inv _ Hx) as (tx & Ex & Nx).
      destruct (truthy_inv _ Hy) as (ty & Ey & Ny).
      destruct (truthy_inv _ Hz) as (tz & Ez & Nz).
      destruct (cmp_daily_dated x y tx ty Ex Nx Ey Ny) as [-> _].
      destruct (cmp_daily_dated y z ty tz Ey Ny Ez Nz) as [-> _].
      destruct (cmp_daily_dated x z tx tz Ex Nx Ez Nz) as [-> _]. lia.
  - apply (Array_sort_sorted_prefix cmp_daily_a
             (fun y => truthy (last_daily_award y))).
    + intros x y Hx. pose proof (cmp_daily_a_last x y Hx). lia.
    + intros x y. apply cmp_daily_a_first.
    + intros x y Hx Hy.
      destruct (truthy_inv _ Hx) as (tx & Ex & Nx).
      destruct (truthy_inv _ Hy) as (ty & Ey & Ny).
      destruct (cmp_daily_dated x y tx ty Ex Nx Ey Ny) as [_ ->].
      destruct (cmp_daily_dated y x ty tx Ey Ny Ex Nx) as [_ ->]. lia.
    + intros x y z Hx Hy Hz.
      destruct (truthy_inv _ Hx) as (tx & Ex & Nx).
      destruct (truthy_inv _ Hy) as (ty & Ey & Ny).
      destruct (truthy_inv _ Hz) as (tz & Ez & Nz).
      destruct (cmp_daily_dated x y tx ty Ex Nx Ey Ny) as [_ ->].
      destruct (cmp_daily_dated y z ty tz Ey Ny Ez Nz) as [_ ->].
      destruct (cmp_daily_dated x z tx tz Ex Nx Ez Nz) as [_ ->]. lia.
Qed.

(** In an array sorted by last award, the records without a usable
    timestamp stand behind all the others. *)
Lemma daily_positions (ty : string) (l : AccountArray) (i j : nat)
      (a b : AccountArrayElement) :
  ty = "daily_d" \/ ty = "daily_a" ->
  truthy (last_daily_award a) = false ->
  truthy (last_daily_award b) = true ->
  nth_error (sortAccounts ty l) i = Some a ->
  nth_error (sortAccounts ty l) j = Some b ->
  (j < i)%nat.
Proof.
  intros Hty Ha Hb Hi Hj.
  assert (Hsplit : exists l1 l2,
             sortAccounts ty l = (l1 ++ l2)%list /\
             Forall (fun y => truthy (last_daily_award y) = true) l1 /\
             Forall (fun y => truthy (last_daily_award y) = false) l2).
  { destruct (daily_sorted_prefix l)
      as [(d1 & d2 & Ed & Fd1 & Fd2 & _) (a1 & a2 & Ea & Fa1 & Fa2 & _)].
    destruct Hty as [-> | ->]; [now exists d1, d2 | now exists a1, a2]. }
  destruct Hsplit as (l1 & l2 & E & F1 & F2).
  rewrite E in Hi, Hj.
  exact (split_positions (fun y => truthy (last_daily_award y))
                         l1 l2 i j a b F1 F2 Hi Hj Ha Hb).
Qed.

(** C4, as stated, fails: [BOB] has no timestamp, [DAVE] has the timestamp
    0; exactly one of the two is absent, yet both comparators answer that
    [DAVE] goes after [BOB] (as they answer that [BOB] goes after [DAVE]),
    and the array that holds [BOB] first comes out of the sort with
    [BOB], the record without timestamp, first. *)
Lemma absent_before_zero_award :
  last_daily_award bob = None /\ last_daily_award dave = Some 0 /\
  cmp_daily_d dave bob = 1 /\ cmp_daily_a dave bob = 1 /\
  cmp_daily_d bob dave = 1 /\ cmp_daily_a bob dave = 1 /\
  sortAccounts "daily_d" [bob; dave] = [bob; dave] /\
  sortAccounts "daily_a" [bob; dave] = [bob; dave].
Proof. repeat split. Qed.

(** C4, amended: for any two records of which one has an absent
    last_daily_award and the other a timestamp that is present and not 0,
    the record with the absent timestamp is ordered after the other under
    both daily_d and daily_a: the comparators say so in either argument
    order, and so does every sorted array that holds the two. *)
Theorem absent_award_sorts_last (a b : AccountArrayElement) (t : Z) :
  last_daily_award a = None ->
  last_daily_award b = Some t -> t <> 0 ->
  (0 < cmp_daily_d a b /\ cmp_daily_d b a < 0 /\
   0 < cmp_daily_a a b /\ cmp_daily_a b a < 0) /\
  (forall ty l i j,
      ty = "daily_d" \/ ty = "daily_a" ->
      nth_error (sortAccounts ty l) i = Some a ->
      nth_error (sortAccounts ty l) j = Some b ->
      (j < i)%nat).
Proof.
  intros Ha Hb Ht.
  assert (Ta : truthy (last_daily_award a) = false) by now rewrite Ha.
  assert (Tb : truthy (last_daily_award b) = true)
    by (rewrite Hb; now apply truthy_Some).
  split.
  - repeat split.
    + now apply cmp_daily_d_last.
    + now apply cmp_daily_d_first.
    + now apply cmp_daily_a_last.
    + now apply cmp_daily_a_first.
  - intros ty l i j Hty Hi Hj. eapply daily_positions; eassumption.
Qed.

Lemma absent_award_sorts_last_witness :
  last_daily_award carol = None /\
  last_daily_award alice = Some 1546300800000 /\
  sortAccounts "daily_a" [bob; alice; carol; bobby] = [alice; bobby; bob; carol] /\
  nth_error (sortAccounts "daily_a" [bob; alice; carol; bobby]) 3 = Some carol /\
  nth_error (sortAccounts "daily_a" [bob; alice; carol; bobby]) 0 = Some alice /\
  (0 < 3)%nat /\ cmp_daily_d alice carol < 0.
Proof.
  assert (Ht : 1546300800000 <> 0) by lia.
  destruct (absent_award_sorts_last carol alice 1546300800000 eq_refl eq_refl Ht)
    as [(_ & Hcmp & _) Hpos].
  do 5 (split; [reflexivity|]).
  split; [|exact Hcmp].
  exact (Hpos "daily_a" [bob; alice; carol; bobby] 3%nat 0%nat
              (or_intror eq_refl) eq_refl eq_refl).
Defined.



(** ** Timestamps equal to 0 *)









(** ** The debounced listener *)

Lemma last_cons {A : Type} (x d : A) (l : list A) : last (x :: l) d = last l x.
Proof.
  revert x d. induction l as [|y l IH]; intros x d; [reflexivity|].
  change (last (x :: y :: l) d) with (last (y :: l) d).
  now rewrite (IH y d), (IH y x).
Qed.

Section DebounceFacts.

Variables toLocaleDateString toLocaleTimeString : Z -> string.

Let run := checkNames toLocaleDateString toLocaleTimeString.
Let inputEvent' := inputEvent toLocaleDateString toLocaleTimeString.
Let typing' := typing toLocaleDateString toLocaleTimeString.

(** An event that comes before the pending deadline replaces the
    timeout and runs nothing. *)
Lemma inputEvent_pending (t now : Z) (v : string) (l : Loop) :
  timeout l = Some (t + 300, run) -> now < t + 300 ->
  inputEvent' now v l =
  mkLoop (setInputValue v (world l)) (Some (now + 300, run)) (fired l).
Proof.
  intros Hto Hlt. subst inputEvent'. unfold inputEvent, elapse.
  rewrite Hto. apply Z.leb_gt in Hlt. rewrite Hlt. reflexivity.
Qed.

(** Through a burst the timeout is always the one of the latest event,
    the box holds its text, and the timer runs nothing. *)
Lemma typing_burst (rest : list (Z * string)) :
  forall (t : Z) (v : string) (l : Loop),
    burst t rest ->
    timeout l = Some (t + 300, run) ->
    input_value (world l) = v ->
    timeout (typing' rest l) = Some (fst (last rest (t, v)) + 300, run) /\
    world (typing' rest l) = setInputValue (snd (last rest (t, v))) (world l) /\
    fired (typing' rest l) = fired l.
Proof.
  induction rest as [|[t' v'] rest IH]; intros t v l Hb Hto Hv.
  - simpl. repeat split; try assumption.
    subst v. destruct (world l); reflexivity.
  - rewrite last_cons.
    destruct Hb as [[Hge Hlt] Hb]. cbn [fst] in Hge, Hlt, Hb.
    change (typing' ((t', v') :: rest) l)
      with (typing' rest (inputEvent' t' v' l)).
    rewrite (inputEvent_pending t t' v' l Hto Hlt).
    destruct (IH t' v' (mkLoop (setInputValue v' (world l))
                               (Some (t' + 300, run)) (fired l))
                 Hb eq_refl eq_refl) as (H1 & H2 & H3).
    split; [exact H1|]. split; [|exact H3].
    rewrite H2. reflexivity.
Qed.

End DebounceFacts.

Lemma checkNames_one_run (dl tl : Z -> string) (w : World) :
  pipelineRuns (calls (exec (checkNames dl tl) w)) = S (pipelineRuns (calls w)).
Proof.
  rewrite checkNames_run. cbn [calls].
  unfold pipelineRuns. rewrite !filter_app, !length_app.
  assert (H1 : forall rs : list Row,
             filter (fun c => match c with CallGetAll => true | _ => false end)
                    (map (fun r => CallSetBanker (account_name r) (row_checked r)) rs) = []).
  { induction rs; simpl; auto. }
  assert (H2 : forall l : AccountArray,
             filter (fun c => match c with CallGetAll => true | _ => false end)
                    (map (fun a => CallIsBanker (name a)) l) = []).
  { induction l; simpl; auto. }
  rewrite H1, H2.
  destruct (trim (toLocaleUpperCase (input_value w)) =? "IS:BANKER")%string;
    destruct (300 <? length (matchesOf w))%nat; simpl; lia.
Qed.

(** C8: a burst of one or more input events, each less than 300
    time-units after the one before, makes [checkNames] run exactly once.
    Nothing runs while the burst lasts: after its last event the world is
    the world at the start of the burst with the text of the last event
    in the search box, and it stays so until 300 time-units have passed
    since the last event. Then the timer runs [checkNames], once, at that
    time, on that world: its search box holds the text of the last
    event, and the call log counts one run more than at the start of the
    burst. *)
Theorem debounce_burst (dl tl : Z -> string) (t1 : Z) (v1 : string)
        (rest : list (Z * string)) (l0 : Loop) (T : Z) :
  burst t1 rest ->
  let e := lastEvent (t1, v1) rest in
  let l := typing dl tl ((t1, v1) :: rest) l0 in
  world l = setInputValue (snd e) (world (elapse t1 l0)) /\
  input_value (world l) = snd e /\
  fired l = fired (elapse t1 l0) /\
  (T < fst e + 300 -> elapse T l = l) /\
  (fst e + 300 <= T ->
     fired (elapse T l) = (fired (elapse t1 l0) ++ [(fst e + 300, world l)])%list /\
     world (elapse T l) = exec (checkNames dl tl) (world l) /\
     pipelineRuns (calls (world (elapse T l)))
     = S (pipelineRuns (calls (world (elapse t1 l0)))) /\
     timeout (elapse T l) = None).
Proof.
  intros Hb e l. subst e. unfold lastEvent.
  set (l1 := inputEvent dl tl t1 v1 l0).
  assert (Hl : l = typing dl tl rest l1) by reflexivity.
  destruct (typing_burst dl tl rest t1 v1 l1 Hb eq_refl eq_refl)
    as (Hto & Hw & Hf).
  rewrite <- Hl in Hto, Hw, Hf.
  assert (Hworld : world l = setInputValue (snd (last rest (t1, v1)))
                                           (world (elapse t1 l0)))
    by (rewrite Hw; reflexivity).
  split; [exact Hworld|]. split; [|split; [|split]].
  - rewrite Hw. reflexivity.
  - rewrite Hf. reflexivity.
  - intros HT. unfold elapse at 1. rewrite Hto.
    apply Z.leb_gt in HT. now rewrite HT.
  - intros HT. unfold elapse at 1 3 4 6. rewrite Hto.
    apply Z.leb_le in HT. rewrite HT. cbn [fired world timeout].
    rewrite Hf. split; [reflexivity|]. split; [reflexivity|].
    split; [|reflexivity].
    rewrite checkNames_one_run, Hworld. reflexivity.
Qed.

Lemma debounce_burst_witness :
  let l := typing sampleDate sampleTime [(0, "b"); (100, "bo"); (350, "bob")]
                  (mkLoop sampleWorld None []) in
  burst 0 [(100, "bo"); (350, "bob")] /\
  map fst (fired (elapse 1000 l)) = [650] /\
  map account_name (rows (world (elapse 1000 l))) = ["BOBBY"; "BOB"] /\
  pipelineRuns (calls (world (elapse 1000 l))) = 1%nat /\
  world (elapse 649 l) = setInputValue "bob" sampleWorld /\
  fired (elapse 649 l) = [].
Proof.
  intros l.
  assert (Hb : burst 0 [(100, "bo"); (350, "bob")]) by (simpl; lia).
  split; [exact Hb|].
  destruct (debounce_burst sampleDate sampleTime 0 "b" [(100, "bo"); (350, "bob")]
                           (mkLoop sampleWorld None []) 1000 Hb)
    as (_ & _ & _ & _ & Hfire).
  destruct (debounce_burst sampleDate sampleTime 0 "b" [(100, "bo"); (350, "bob")]
                           (mkLoop sampleWorld None []) 649 Hb)
    as (Hworld & _ & Hquiet & Hwait & _).
  fold l in Hfire, Hworld, Hquiet, Hwait.
  assert (H1 : 350 + 300 <= 1000) by lia.
  assert (H2 : 649 < 350 + 300) by lia.
  destruct (Hfire H1) as (Hf & Hw & Hruns & _).
  split; [|split; [|split; [|split]]].
  - rewrite Hf. reflexivity.
  - rewrite Hw. reflexivity.
  - rewrite Hruns. reflexivity.
  - rewrite (Hwait H2), Hworld. reflexivity.
  - rewrite (Hwait H2), Hquiet. reflexivity.
Defined.

(** * Further properties of the accounts tab *)

(** ** The search text *)

Lemma isSpace_upperChar (c : ascii) : isSpace c = true -> upperChar c = c.
Proof.
  destruct c as [[] [] [] [] [] [] [] []]; vm_compute; intros H;
    (reflexivity || discriminate H).
Qed.

Lemma upperChar_idem (c : ascii) : upperChar (upperChar c) = upperChar c.
Proof. destruct c as [[] [] [] [] [] [] [] []]; vm_compute; reflexivity. Qed.

Lemma toLocaleUpperCase_idem (s : string) :
  toLocaleUpperCase (toLocaleUpperCase s) = toLocaleUpperCase s.
Proof.
  induction s as [|c s IH]; simpl; [reflexivity|].
  now rewrite upperChar_idem, IH.
Qed.

Lemma toLocaleUpperCase_app (s t : string) :
  toLocaleUpperCase (s ++ t) = toLocaleUpperCase s ++ toLocaleUpperCase t.
Proof. induction s as [|c s IH]; simpl; [reflexivity | now rewrite IH]. Qed.

Lemma toLocaleUpperCase_spaces (s : string) :
  isSpaces s = true -> toLocaleUpperCase s = s.
Proof.
  induction s as [|c s IH]; simpl; [reflexivity|].
  intros H. apply andb_true_iff in H as [Hc Hs].
  now rewrite (isSpace_upperChar c Hc), IH.
Qed.

Lemma trimStart_spaces (pre s : string) :
  isSpaces pre = true -> trimStart (pre ++ s) = trimStart s.
Proof.
  induction pre as [|c pre IH]; simpl; [reflexivity|].
  intros H. apply andb_true_iff in H as [Hc Hs]. rewrite Hc. now apply IH.
Qed.

Lemma trimStart_blank (s : string) : isSpaces s = true -> trimStart s = "".
Proof.
  induction s as [|c s IH]; simpl; [reflexivity|].
  intros H. apply andb_true_iff in H as [Hc Hs]. rewrite Hc. now apply IH.
Qed.

Lemma trimEnd_spaces (post : string) : isSpaces post = true -> trimEnd post = "".
Proof.
  induction post as [|c post IH]; simpl; [reflexivity|].
  intros H. apply andb_true_iff in H as [Hc Hs]. now rewrite (IH Hs), Hc.
Qed.

Lemma trimEnd_app_spaces (s post : string) :
  isSpaces post = true -> trimEnd (s ++ post) = trimEnd s.
Proof.
  intros H. induction s as [|c s IH]; simpl.
  - now apply trimEnd_spaces.
  - now rewrite IH.
Qed.

Lemma trim_app_spaces (s post : string) :
  isSpaces post = true -> trim (s ++ post) = trim s.
Proof.
  intros H. unfold trim. induction s as [|c s IH].
  - simpl "++". now rewrite trimStart_blank.
  - simpl. destruct (isSpace c); [exact IH|].
    now apply (trimEnd_app_spaces (String c s)).
Qed.

Lemma trim_normal (raw pre post : string) :
  isSpaces pre = true -> isSpaces post = true ->
  trim (toLocaleUpperCase (pre ++ raw ++ post)) = trim (toLocaleUpperCase raw).
Proof.
  intros Hpre Hpost.
  rewrite !toLocaleUpperCase_app.
  rewrite (toLocaleUpperCase_spaces pre Hpre), (toLocaleUpperCase_spaces post Hpost).
  unfold trim at 1. rewrite trimStart_spaces by assumption.
  fold (trim (toLocaleUpperCase raw ++ post)).
  now apply trim_app_spaces.
Qed.

(** X1: a search text made of white space only, the empty text among
    them, accepts every record without reading a store, so the matches of
    the run are all the accounts of the store, in the order of the sort. *)
Theorem blank_search_accepts_all (raw : string) (w : World) :
  isSpaces raw = true ->
  (forall a, eval (parse raw) w a = true) /\
  exec (parse raw) w = w /\
  (input_value w = raw -> Permutation (matchesOf w) (accounts_store w)).
Proof.
  intros H.
  assert (E : trim (toLocaleUpperCase raw) = "").
  { rewrite (toLocaleUpperCase_spaces raw H). unfold trim.
    now rewrite trimStart_blank. }
  split; [|split].
  - intros a. unfold parse. rewrite E. reflexivity.
  - unfold parse. rewrite E. reflexivity.
  - intros Hin. unfold matchesOf, parse. rewrite Hin, E.
    eapply Permutation_trans; [apply sortAccounts_perm|].
    assert (Hall : forall l : AccountArray, filter (fun _ => true) l = l)
      by (induction l as [|x l IH]; simpl; [|rewrite IH]; reflexivity).
    change (eval (accountFilter "") (exec (updateBankers (rows w)) w))
      with (fun _ : AccountArrayElement => true).
    rewrite Hall. apply Permutation_refl.
Qed.

Lemma blank_search_accepts_all_witness :
  eval (parse "   ") sampleWorld dave = true /\
  Permutation (matchesOf sampleWorld) [alice; bob; bobby; carol; dave].
Proof.
  destruct (blank_search_accepts_all "   " sampleWorld eq_refl) as (Hall & _ & _).
  destruct (blank_search_accepts_all "" sampleWorld eq_refl) as (_ & _ & Hperm).
  split; [apply Hall | exact (Hperm eq_refl)].
Defined.

(** X2: the search does not depend on the case of the typed text nor on
    white space around it: padding a text with white space, or writing it
    in upper case, gives the same predicate and the same store reads. *)
Theorem parse_ignores_case_and_padding (raw pre post : string) :
  isSpaces pre = true -> isSpaces post = true ->
  parse (pre ++ raw ++ post) = parse raw /\
  parse (toLocaleUpperCase raw) = parse raw.
Proof.
  intros Hpre Hpost. unfold parse. split.
  - now rewrite trim_normal.
  - now rewrite toLocaleUpperCase_idem.
Qed.

Lemma parse_ignores_case_and_padding_witness :
  parse ("  " ++ "is:Banker" ++ " ") = parse "is:Banker" /\
  parse "IS:BANKER" = parse "is:Banker".
Proof.
  exact (parse_ignores_case_and_padding "is:Banker" "  " " " eq_refl eq_refl).
Defined.

(** ** Balance queries *)

Lemma string_app_assoc (a b c : string) : (a ++ b) ++ c = a ++ (b ++ c).
Proof. induction a as [|x a IH]; simpl; [reflexivity | now rewrite IH]. Qed.

Lemma literalCI_suffix (lit s r : string) :
  literalCI lit s = Some r -> exists p, s = p ++ r.
Proof.
  revert s. induction lit as [|a lit IH]; intros s H; simpl in H.
  - exists "". now inversion H.
  - destruct s as [|b s]; [discriminate|].
    destruct (Ascii.eqb (upperChar a) (upperChar b)); [|discriminate].
    destruct (IH _ H) as [p ->]. exists (String b p). reflexivity.
Qed.

Lemma isDigits_takeDigits (s : string) : isDigits (takeDigits s) = true.
Proof.
  induction s as [|c s IH]; simpl; [reflexivity|].
  destruct (isDigit c) eqn:Hc; simpl; [now rewrite Hc | reflexivity].
Qed.

(** The first run of digits is found wherever a digit occurs. *)
Lemma matchDigits_found (p r : string) (c : ascii) :
  isDigit c = true ->
  exists d, matchDigits (p ++ String c r) = Some d /\ d <> "" /\ isDigits d = true.
Proof.
  intros Hc. induction p as [|x p IH]; simpl.
  - rewrite Hc. eexists. split; [reflexivity|]. split; [discriminate|].
    simpl. now rewrite Hc, isDigits_takeDigits.
  - destruct (isDigit x) eqn:Hx; [|exact IH].
    eexists. split; [reflexivity|]. split; [discriminate|].
    simpl. now rewrite Hx, isDigits_takeDigits.
Qed.

Lemma digitsHere_inv (s : string) :
  digitsHere s = true -> exists c r, s = String c r /\ isDigit c = true.
Proof. destruct s as [|c r]; [discriminate|]. intros H. now exists c, r. Qed.

Lemma testBalance_has_digit (s : string) :
  testBalance s = true ->
  exists p c r, s = p ++ String c r /\ isDigit c = true.
Proof.
  assert (Here : forall s, balanceHere s = true ->
                           exists p c r, s = p ++ String c r /\ isDigit c = true).
  { intros s0 H. unfold balanceHere in H.
    destruct (literalCI "balance:" s0) as [r0|] eqn:Hl; [|discriminate].
    destruct (literalCI_suffix _ _ _ Hl) as [p ->].
    apply orb_true_iff in H as [H|H].
    - destruct (digitsHere_inv _ H) as (c & r & -> & Hc). now exists p, c, r.
    - destruct r0 as [|c0 r']; [discriminate|].
      apply andb_true_iff in H as [_ H].
      destruct (digitsHere_inv _ H) as (c & r & -> & Hc).
      exists (p ++ String c0 ""), c, r. split; [|assumption].
      now rewrite string_app_assoc. }
  induction s as [|x s IH]; intros H.
  - simpl in H. discriminate.
  - change (testBalance (String x s))
      with (balanceHere (String x s) || testBalance s) in H.
    apply orb_true_iff in H as [H|H]; [now apply Here|].
    destruct (IH H) as (p & c & r & -> & Hc).
    now exists (String x p), c, r.
Qed.

Lemma isDigit_value (c : ascii) : isDigit c = true -> 0 <= digitValue c <= 9.
Proof.
  unfold isDigit, digitValue. cbv zeta. intros H.
  apply andb_true_iff in H as [H1 H2].
  apply Nat.leb_le in H1. apply Nat.leb_le in H2.
  apply Nat2Z.inj_le in H1. apply Nat2Z.inj_le in H2.
  change (Z.of_nat 48) with 48 in H1. change (Z.of_nat 57) with 57 in H2.
  split; lia.
Qed.

Lemma toNumberAcc_nonneg (d : string) (acc : Z) :
  isDigits d = true -> 0 <= acc -> 0 <= toNumberAcc acc d.
Proof.
  revert acc. induction d as [|c d IH]; intros acc Hd Hacc;
    cbn [toNumberAcc]; [assumption|].
  cbn [isDigits] in Hd. apply andb_true_iff in Hd as [Hc Hd].
  apply IH; [assumption|]. pose proof (isDigit_value c Hc). lia.
Qed.

(** X3: for every search text that holds a balance query, the amount is
    the first run of digits of the whole trimmed, upper-cased text; this
    run always exists (the amount 0 provided for a failed match is never
    used) and the amount is never negative. The predicate compares the
    balance with it: below the amount if the text holds a [<] anywhere,
    else above it if the text holds a [>], else equal to it. *)
Theorem parse_balance_query (raw : string) (w : World) :
  let text := trim (toLocaleUpperCase raw) in
  testBalance text = true ->
  exists d,
    matchDigits text = Some d /\ d <> "" /\ isDigits d = true /\
    0 <= toNumber d /\
    forall a,
      eval (parse raw) w a =
      if includes text "<" then balance a <? toNumber d
      else if includes text ">" then balance a >? toNumber d
      else balance a =? toNumber d.
Proof.
  intros text. unfold parse. fold text. generalize text. clear text raw.
  intros text Ht.
  destruct (testBalance_has_digit text Ht) as (p & c & r & E & Hc).
  destruct (matchDigits_found p r c Hc) as (d & Hd & Hne & Hds).
  rewrite <- E in Hd.
  exists d. split; [assumption|]. split; [assumption|]. split; [assumption|].
  split; [now apply toNumberAcc_nonneg|].
  intros a. unfold eval, accountFilter.
  destruct (text =? "")%string eqn:E0.
  { apply String.eqb_eq in E0. rewrite E0 in Ht. vm_compute in Ht. discriminate Ht. }
  destruct (text =? "IS:BANKER")%string eqn:E1.
  { apply String.eqb_eq in E1. rewrite E1 in Ht. vm_compute in Ht. discriminate Ht. }
  rewrite Ht, Hd.
  destruct (includes text "<"); [reflexivity|].
  destruct (includes text ">"); reflexivity.
Qed.

Lemma parse_balance_query_witness :
  matchDigits (trim (toLocaleUpperCase "top 5: balance:>100<")) = Some "5" /\
  eval (parse "top 5: balance:>100<") sampleWorld alice = false /\
  eval (parse "top 5: balance:>100<") sampleWorld (mkAccount "POOR" 4 None) = true.
Proof.
  destruct (parse_balance_query "top 5: balance:>100<" sampleWorld eq_refl)
    as (d & Hd & _ & _ & _ & Hp).
  assert (E : d = "5") by (vm_compute in Hd; now inversion Hd).
  subst d. split; [exact Hd|]. split; apply Hp.
Defined.

(** ** More on the sort selector *)

(** X4: whatever the value of the sort control, sorting neither drops nor
    duplicates a record; a value other than the four known modes leaves
    the order as it is. *)
Theorem sortAccounts_keeps_records (ty : string) (l : AccountArray) :
  Permutation (sortAccounts ty l) l /\
  (ty <> "bal_d" -> ty <> "bal_a" -> ty <> "daily_d" -> ty <> "daily_a" ->
   sortAccounts ty l = l).
Proof.
  split; [apply sortAccounts_perm|].
  intros H1 H2 H3 H4. unfold sortAccounts.
  apply String.eqb_neq in H1. apply String.eqb_neq in H2.
  apply String.eqb_neq in H3. apply String.eqb_neq in H4.
  now rewrite H1, H2, H3, H4.
Qed.

Lemma sortAccounts_keeps_records_witness :
  sortAccounts "name" [bob; alice; dave] = [bob; alice; dave].
Proof.
  apply (sortAccounts_keeps_records "name" [bob; alice; dave]); text_differs.
Defined.

Lemma StronglySorted_nth {A : Type} (R : A -> A -> Prop) (l : list A) :
  StronglySorted R l ->
  forall i j a b, (i < j)%nat ->
                  nth_error l i = Some a -> nth_error l j = Some b -> R a b.
Proof.
  induction 1 as [|x l Hs IH Hx]; intros i j a b Hij Hi Hj.
  - destruct i; discriminate.
  - destruct j as [|j]; [lia|]. simpl in Hj.
    destruct i as [|i].
    + simpl in Hi. inversion Hi; subst.
      rewrite Forall_forall in Hx. apply Hx. eapply nth_error_In; eassumption.
    + simpl in Hi. apply (IH i j); [lia | assumption | assumption].
Qed.

(** X5: under bal_d the sorted array never has a smaller balance in front
    of a larger one, under bal_a never a larger one in front of a smaller
    one. *)
Theorem balance_modes_in_order (l : AccountArray) (i j : nat)
        (a b : AccountArrayElement) :
  (i < j)%nat ->
  (nth_error (sortAccounts "bal_d" l) i = Some a ->
   nth_error (sortAccounts "bal_d" l) j = Some b -> balance b <= balance a) /\
  (nth_error (sortAccounts "bal_a" l) i = Some a ->
   nth_error (sortAccounts "bal_a" l) j = Some b -> balance a <= balance b).
Proof.
  intros Hij. split; intros Hi Hj.
  - assert (Hs : StronglySorted (fun x y => 0 <= cmp_bal_d y x)
                                (sortAccounts "bal_d" l))
      by (apply (Array_sort_sorted cmp_bal_d l); unfold cmp_bal_d; intros; lia).
    pose proof (StronglySorted_nth _ _ Hs i j a b Hij Hi Hj) as H.
    unfold cmp_bal_d in H. lia.
  - assert (Hs : StronglySorted (fun x y => 0 <= cmp_bal_a y x)
                                (sortAccounts "bal_a" l))
      by (apply (Array_sort_sorted cmp_bal_a l); unfold cmp_bal_a; intros; lia).
    pose proof (StronglySorted_nth _ _ Hs i j a b Hij Hi Hj) as H.
    unfold cmp_bal_a in H. lia.
Qed.

Lemma balance_modes_in_order_witness :
  sortAccounts "bal_d" [bob; alice; bobby; carol] = [alice; bobby; bob; carol] /\
  balance carol <= balance bobby.
Proof.
  split; [reflexivity|].
  assert (H : (1 < 3)%nat) by lia.
  destruct (balance_modes_in_order [bob; alice; bobby; carol] 1 3 bobby carol H)
    as [Hd _].
  exact (Hd eq_refl eq_refl).
Defined.

(** A record of the sorted prefix sits in the prefix. *)
Lemma prefix_position {A : Type} (p : A -> bool) (l1 l2 : list A) (i : nat) (a : A) :
  Forall (fun y => p y = false) l2 ->
  nth_error (l1 ++ l2) i = Some a -> p a = true ->
  nth_error l1 i = Some a.
Proof.
  intros F2 Hi Ha.
  destruct (le_lt_dec (length l1) i) as [Hle|Hlt].
  - rewrite nth_error_app2 in Hi by assumption.
    apply nth_error_In in Hi. rewrite Forall_forall in F2.
    apply F2 in Hi. congruence.
  - now rewrite nth_error_app1 in Hi.
Qed.

(** X6: among the records whose timestamp is present and not 0, daily_d
    never has an earlier award in front of a later one and daily_a never a
    later one in front of an earlier one, whatever other records the array
    holds. *)
Theorem award_modes_in_order (l : AccountArray) (i j : nat)
        (a b : AccountArrayElement) (ta tb : Z) :
  (i < j)%nat ->
  last_daily_award a = Some ta -> ta <> 0 ->
  last_daily_award b = Some tb -> tb <> 0 ->
  (nth_error (sortAccounts "daily_d" l) i = Some a ->
   nth_error (sortAccounts "daily_d" l) j = Some b -> tb <= ta) /\
  (nth_error (sortAccounts "daily_a" l) i = Some a ->
   nth_error (sortAccounts "daily_a" l) j = Some b -> ta <= tb).
Proof.
  intros Hij Ha Hta Hb Htb.
  assert (Pa : truthy (last_daily_award a) = true)
    by (rewrite Ha; now apply truthy_Some).
  assert (Pb : truthy (last_daily_award b) = true)
    by (rewrite Hb; now apply truthy_Some).
  destruct (cmp_daily_dated b a tb ta Hb Htb Ha Hta) as [Ed Ea].
  destruct (daily_sorted_prefix l)
    as [(d1 & d2 & E1 & _ & F1 & S1) (a1 & a2 & E2 & _ & F2 & S2)].
  split; intros Hi Hj.
  - rewrite E1 in Hi, Hj.
    apply (prefix_position (fun y => truthy (last_daily_award y))) in Hi;
      [|assumption|assumption].
    apply (prefix_position (fun y => truthy (last_daily_award y))) in Hj;
      [|assumption|assumption].
    pose proof (StronglySorted_nth _ _ S1 i j a b Hij Hi Hj) as H.
    simpl in H. lia.
  - rewrite E2 in Hi, Hj.
    apply (prefix_position (fun y => truthy (last_daily_award y))) in Hi;
      [|assumption|assumption].
    apply (prefix_position (fun y => truthy (last_daily_award y))) in Hj;
      [|assumption|assumption].
    pose proof (StronglySorted_nth _ _ S2 i j a b Hij Hi Hj) as H.
    simpl in H. lia.
Qed.

Lemma award_modes_in_order_witness :
  sortAccounts "daily_a" [dave; bobby; bob; alice] = [alice; bobby; dave; bob] /\
  1546300800000 <= 1546387200000.
Proof.
  split; [reflexivity|].
  assert (H : (0 < 1)%nat) by lia.
  assert (Na : 1546300800000 <> 0) by lia.
  assert (Nb : 1546387200000 <> 0) by lia.
  destruct (award_modes_in_order [dave; bobby; bob; alice] 0 1 alice bobby
              1546300800000 1546387200000 H eq_refl Na eq_refl Nb) as [_ Ha].
  exact (Ha eq_refl eq_refl).
Defined.

(** ** More on a run *)

(** X7: a run of [checkNames] shows at most 300 rows and leaves the search
    box, the sort control and the record store as they were: the sort and
    the cut work on a copy, and no removal is asked of the store. *)
Theorem checkNames_frame (dl tl : Z -> string) (w : World) :
  let w' := exec (checkNames dl tl) w in
  input_value w' = input_value w /\
  sort_checked w' = sort_checked w /\
  accounts_store w' = accounts_store w /\
  removals (calls w') = removals (calls w) /\
  (length (rows w') <= 300)%nat.
Proof.
  intros w'.
  destruct (checkNames_calls dl tl w) as (delta & Hcalls & Hrem & _).
  fold w' in Hcalls.
  assert (Hlen : (length (rows w') <= 300)%nat).
  { rewrite <- (length_map account_name). subst w'.
    rewrite checkNames_rows, length_map.
    destruct (300 <? length (matchesOf w))%nat eqn:Hb.
    - rewrite length_firstn. lia.
    - now apply Nat.ltb_ge in Hb. }
  subst w'. rewrite checkNames_run in *. cbn [input_value sort_checked accounts_store].
  repeat split; try assumption.
  rewrite Hcalls. unfold removals at 1. rewrite flat_map_app.
  fold (removals delta). rewrite Hrem. apply app_nil_r.
Qed.

(** X8: every row that a run shows belongs to an account of the store that
    passes the filter of the search text, with its name, its balance, the
    text of its award date and, in its checkbox, the banker flag that the
    store holds for its name at the end of the run; when the matches are
    at most 300, every such account has its row. *)
Theorem checkNames_rows_are_matches (dl tl : Z -> string) (w : World) :
  let w' := exec (checkNames dl tl) w in
  let keep := eval (parse (input_value w)) (exec (updateBankers (rows w)) w) in
  (forall r, In r (rows w') ->
     exists a, In a (accounts_store w) /\ keep a = true /\
               r = rowOf dl tl a (arrayIncludes (bankers_store w') (name a))) /\
  ((length (matchesOf w) <= 300)%nat ->
   forall a, In a (accounts_store w) -> keep a = true ->
             In (rowOf dl tl a (arrayIncludes (bankers_store w') (name a))) (rows w')).
Proof.
  intros w' keep. subst w'. rewrite checkNames_run. cbn [rows bankers_store].
  assert (Hms : forall a, In a (matchesOf w) <->
                          In a (accounts_store w) /\ keep a = true).
  { intros a. unfold matchesOf. fold keep. rewrite <- filter_In. split; intros H.
    - exact (Permutation_in _ (sortAccounts_perm _ _) H).
    - exact (Permutation_in _ (Permutation_sym (sortAccounts_perm _ _)) H). }
  split.
  - intros r Hr. apply in_map_iff in Hr as (a & <- & Ha).
    exists a. rewrite <- and_assoc. split; [|reflexivity].
    apply Hms. destruct (300 <? length (matchesOf w))%nat; [|assumption].
    rewrite <- (firstn_skipn 300). apply in_or_app. now left.
  - intros Hlen a Ha Hk. apply Nat.ltb_ge in Hlen. rewrite Hlen.
    apply in_map_iff. exists a. split; [reflexivity|]. apply Hms. now split.
Qed.

Lemma checkNames_rows_are_matches_witness :
  In (mkRow "BOB" "BOB" "Never" true 40)
     (rows (exec (checkNames sampleDate sampleTime) sampleWorld)).
Proof.
  assert (Hlen : (length (matchesOf sampleWorld) <= 300)%nat)
    by (apply Nat.leb_le; vm_compute; reflexivity).
  destruct (checkNames_rows_are_matches sampleDate sampleTime sampleWorld)
    as [_ Hall].
  exact (Hall Hlen bob (or_intror (or_introl eq_refl)) eq_refl).
Defined.

(** X9: the calls of a run, in order: one [setBanker] for each row on
    display, with its name and the state of its checkbox, before anything
    is read; the banker list, for IS:BANKER only; the accounts, once; the
    notice, if the matches are more than 300; one [isBanker] for each row
    that is rendered. *)
Theorem checkNames_call_order (dl tl : Z -> string) (w : World) :
  let w' := exec (checkNames dl tl) w in
  calls w' =
  (calls w
   ++ map (fun r => CallSetBanker (account_name r) (row_checked r)) (rows w)
   ++ (if (trim (toLocaleUpperCase (input_value w)) =? "IS:BANKER")%string
       then [CallGetBankers] else [])
   ++ [CallGetAll]
   ++ (if (300 <? length (matchesOf w))%nat
       then [CallNotify ("Showing 300/" ++ numberToString (length (matchesOf w))
                                        ++ " matches")%string]
       else [])
   ++ map (fun r => CallIsBanker (account_name r)) (rows w'))%list.
Proof.
  intros w'. subst w'. rewrite checkNames_run. cbn [calls rows].
  rewrite map_map. reflexivity.
Qed.

(** X10: a second run right after a run changes nothing on display: the
    rows are the same, in the same order, the record store is the same and
    so is every banker flag. *)
Theorem checkNames_twice (dl tl : Z -> string) (w : World) :
  let w1 := exec (checkNames dl tl) w in
  let w2 := exec (checkNames dl tl) w1 in
  rows w2 = rows w1 /\
  accounts_store w2 = accounts_store w1 /\
  (forall m, arrayIncludes (bankers_store w2) m = arrayIncludes (bankers_store w1) m).
Proof.
  intros w1 w2. subst w2.
  remember (exec (checkNames dl tl) w) as w0 eqn:H0. subst w1.
  rewrite checkNames_run in H0. cbv zeta in H0.
  assert (Ei : input_value w0 = input_value w) by now rewrite H0.
  assert (Es : sort_checked w0 = sort_checked w) by now rewrite H0.
  assert (Ea : accounts_store w0 = accounts_store w) by now rewrite H0.
  assert (Eb : bankers_store w0 = bankersAtParse w) by now rewrite H0.
  assert (Er : rows w0 =
               map (fun a => rowOf dl tl a (arrayIncludes (bankersAtParse w) (name a)))
                   (if (300 <? length (matchesOf w))%nat
                    then firstn 300 (matchesOf w) else matchesOf w))
    by now rewrite H0.
  clear H0.
  assert (Hrows : forall r, In r (rows w0) ->
                            row_checked r = arrayIncludes (bankers_store w0) (account_name r)).
  { intros r Hr. rewrite Er in Hr. rewrite Eb.
    apply in_map_iff in Hr as (a & <- & _). reflexivity. }
  assert (Hflags : forall m, arrayIncludes (bankersAtParse w0) m
                             = arrayIncludes (bankers_store w0) m).
  { intros m. rewrite bankersAtParse_eq. now apply reconcile_agree. }
  assert (Hms : matchesOf w0 = matchesOf w).
  { apply matchesOf_members; try assumption.
    intros m. now rewrite Hflags, Eb. }
  rewrite checkNames_run. cbn [rows accounts_store bankers_store].
  split; [|split].
  - rewrite Hms, Er.
    destruct (300 <? length (matchesOf w))%nat;
      apply map_ext; intros a; f_equal; now rewrite Hflags, Eb.
  - reflexivity.
  - exact Hflags.
Qed.

(** X11: a run changes banker flags through the rows on display only: a
    name that no row carries keeps its flag, and a name that rows carry
    ends with the state of the checkbox of the last of these rows. *)
Theorem checkNames_flags (dl tl : Z -> string) (w : World) (n : string) :
  let w' := exec (checkNames dl tl) w in
  (~ In n (map account_name (rows w)) ->
   arrayIncludes (bankers_store w') n = arrayIncludes (bankers_store w) n) /\
  (forall rs r rs',
      rows w = (rs ++ r :: rs')%list -> account_name r = n ->
      ~ In n (map account_name rs') ->
      arrayIncludes (bankers_store w') n = row_checked r).
Proof.
  intros w'. subst w'. rewrite checkNames_run. cbn [bankers_store].
  rewrite bankersAtParse_eq. split.
  - apply reconcile_other.
  - intros rs r rs' E <- Hlast. rewrite E. now apply reconcile_last.
Qed.

Lemma checkNames_flags_witness :
  arrayIncludes (bankers_store (exec (checkNames sampleDate sampleTime) staleWorld))
                "BOB" = true /\
  arrayIncludes (bankers_store (exec (checkNames sampleDate sampleTime) staleWorld))
                "ALICE" = false.
Proof.
  destruct (checkNames_flags sampleDate sampleTime staleWorld "BOB") as [_ Hlast].
  destruct (checkNames_flags sampleDate sampleTime staleWorld "ALICE") as [Hkeep _].
  split.
  - apply (Hlast [] (mkRow "BOB" "BOB" "Never" true 40) []);
      [reflexivity | reflexivity | simpl; tauto].
  - rewrite Hkeep; [reflexivity|].
    simpl. intros [H|[]]. discriminate H.
Defined.

(** X12: deleting the accounts on display leaves the banker flags as a
    plain run would leave them: an account whose box is checked is removed
    from the record store and still is a banker afterwards. *)
Theorem delete_keeps_banker_flags (dl tl : Z -> string) (w : World) :
  let w' := exec (onAlertResponse dl tl "Delete") w in
  bankers_store w' = bankersAtParse w /\
  (forall rs r rs',
      rows w = (rs ++ r :: rs')%list ->
      ~ In (account_name r) (map account_name rs') ->
      row_checked r = true ->
      arrayIncludes (bankers_store w') (account_name r) = true /\
      forall a, In a (accounts_store w') -> name a <> account_name r).
Proof.
  intros w'.
  assert (Hw' : w' = exec (checkNames dl tl)
                          (exec (removeAccounts (map account_name (rows w))) w)).
  { subst w'. unfold onAlertResponse. cbn [String.eqb Ascii.eqb Bool.eqb negb].
    unfold exec, bind, getRows. rewrite removeAccounts_run. reflexivity. }
  unfold exec in Hw' at 2. rewrite removeAccounts_run in Hw'. cbn [snd] in Hw'.
  rewrite checkNames_run in Hw'.
  rewrite !bankersAtParse_eq in *. cbn [rows bankers_store accounts_store] in Hw'.
  split.
  - rewrite Hw'. reflexivity.
  - intros rs r rs' E Hlast Hc. split.
    + rewrite Hw'. cbn [bankers_store]. rewrite E, reconcile_last by assumption.
      exact Hc.
    + intros a Ha Hn. rewrite Hw' in Ha. cbn [accounts_store] in Ha.
      apply filter_In in Ha as [_ Hkeep].
      assert (Hin : arrayIncludes (map account_name (rows w)) (name a) = true).
      { apply arrayIncludes_In. rewrite Hn, E, map_app. apply in_or_app.
        right. now left. }
      rewrite Hin in Hkeep. discriminate.
Qed.

Lemma delete_keeps_banker_flags_witness :
  let w' := exec (onAlertResponse sampleDate sampleTime "Delete") staleWorld in
  arrayIncludes (bankers_store w') "BOB" = true /\
  accounts_store w' = [alice; bobby; carol; dave].
Proof.
  intros w'.
  destruct (delete_keeps_banker_flags sampleDate sampleTime staleWorld)
    as [_ Hflag].
  destruct (Hflag [] (mkRow "BOB" "BOB" "Never" true 40) [] eq_refl)
    as [Hb _]; [simpl; tauto | reflexivity |].
  split; [exact Hb | reflexivity].
Defined.

(** ** The change event *)

(** X13: a change event from a checkbox runs [checkNames] and then sets
    the flag of the name found on the row of the checkbox, the empty name
    when the row has no [account_name]: afterwards that name is a banker
    exactly when the box is checked, every other name has the flag the run
    left, and the rows are those of the run. A change event from any other
    control is the run alone. *)
Theorem change_event (dl tl : Z -> string) (attribute : option string)
        (checked : bool) (w : World) :
  let n := match attribute with Some n => n | None => "" end in
  let w1 := exec (checkNames dl tl) w in
  let w' := exec (changeEvent dl tl (Checkbox attribute checked)) w in
  rows w' = rows w1 /\
  accounts_store w' = accounts_store w /\
  calls w' = (calls w1 ++ [CallSetBanker n checked])%list /\
  arrayIncludes (bankers_store w') n = checked /\
  (forall m, m <> n ->
             arrayIncludes (bankers_store w') m = arrayIncludes (bankers_store w1) m) /\
  exec (changeEvent dl tl OtherControl) w = w1.
Proof.
  intros n w1 w'.
  assert (Hw' : w' = exec (setBanker n checked) w1).
  { subst w' w1. unfold changeEvent, exec, bind.
    destruct (checkNames dl tl w) as [u w0]. reflexivity. }
  assert (Hother : exec (changeEvent dl tl OtherControl) w = w1).
  { subst w1. unfold changeEvent, exec, bind.
    destruct (checkNames dl tl w) as [u w0]. reflexivity. }
  assert (Hstore : accounts_store w1 = accounts_store w)
    by (subst w1; rewrite checkNames_run; reflexivity).
  rewrite Hw'. unfold exec at 1 2 3 4 5, setBanker, bind, logCall, setBankersStore.
  cbn [snd fst rows accounts_store calls bankers_store].
  repeat split; try assumption.
  - apply withBanker_same.
  - intros m Hm. now apply withBanker_other.
Qed.

Lemma change_event_witness :
  let w' := exec (changeEvent sampleDate sampleTime (Checkbox (Some "CAROL") true))
                 sampleWorld in
  arrayIncludes (bankers_store w') "CAROL" = true /\
  arrayIncludes (bankers_store w') "BOB" = true /\
  arrayIncludes (bankers_store w') "ALICE" = false.
Proof.
  intros w'.
  destruct (change_event sampleDate sampleTime (Some "CAROL") true sampleWorld)
    as (_ & _ & _ & Hset & Hkeep & _).
  split; [exact Hset|]. split.
  - rewrite Hkeep; [reflexivity | text_differs].
  - rewrite Hkeep; [reflexivity | text_differs].
Defined.
